(** * Signed-integer molecule codecs of ccc (packages/core/src/molecule)

    A shallow embedding of the two revisions of [signed.ts] found in the
    repository, together with the pieces of the JavaScript runtime they
    call ([Number], [Uint8Array], [DataView]), and of [Codec.from] and the
    combinators [option] and [vector] they are handed to. *)

From Stdlib Require Import String ZArith List Bool Lia.
From Stdlib Require Import Strings.Byte.
From Stdlib Require Import DecimalString.
Import ListNotations.

Local Open Scope Z_scope.

(** ** Thrown values and the result of a call *)

(** What a call can throw.  [RangeError] is the runtime's own (a
    [DataView] access outside its buffer); [Error] is [new Error(msg)] as
    [fixedBytesFrom] throws it; [DecodeError] and [AtIndex] belong to the
    combinators: a size mismatch with the expected and the actual size, and
    a failure of the inner codec tagged with the index of the item. *)
Inductive Exn : Type :=
| RangeError
| Error (message : string)
| DecodeError (expected actual : Z)
| AtIndex (index : nat) (cause : Exn).

Inductive Result (A : Type) : Type :=
| Ok (value : A)
| Throw (e : Exn).

Arguments Ok {A} value.
Arguments Throw {A} e.

Definition bind {A B : Type} (r : Result A) (k : A -> Result B) : Result B :=
  match r with
  | Ok a => k a
  | Throw e => Throw e
  end.

Notation "'let!' x ':=' r 'in' k" := (bind r (fun x => k))
  (at level 10, x name, r at level 100, k at level 200).

(** ** Bytes *)

Definition Bytes : Type := list byte.

Definition Z_of_byte (b : byte) : Z := Z.of_N (Byte.to_N b).

(** The octet holding [z mod 256]. *)
Definition byte_of_Z (z : Z) : byte :=
  match Byte.of_N (Z.to_N (z mod 256)) with
  | Some b => b
  | None => x00
  end.

(** [new Uint8Array(n)]: [n] zero octets. *)
Definition Uint8Array_new (n : nat) : Bytes := repeat x00 n.

(** Unsigned value of octets, least significant first. *)
Fixpoint le_to_Z (bs : Bytes) : Z :=
  match bs with
  | [] => 0
  | b :: rest => Z_of_byte b + 256 * le_to_Z rest
  end.

(** The [n] low-order octets of [z], least significant first. *)
Fixpoint Z_to_le (n : nat) (z : Z) : Bytes :=
  match n with
  | O => []
  | S k => byte_of_Z z :: Z_to_le k (z / 256)
  end.

(** Reading of a [w]-bit pattern [u] (with [0 <= u < 2^w]) as two's
    complement. *)
Definition toSigned (w : Z) (u : Z) : Z :=
  if u <? 2 ^ (w - 1) then u else u - 2 ^ w.

(** The representable signed range of width [w]. *)
Definition in_range (w : Z) (n : Z) : Prop :=
  - 2 ^ (w - 1) <= n < 2 ^ (w - 1).

(** [n] reduced modulo [2^w] into the signed range. *)
Definition wrap (w : Z) (n : Z) : Z := toSigned w (n mod 2 ^ w).

(** [String(n)] on a non-negative integer: its decimal digits. *)
Definition String_of_nat (n : nat) : string :=
  NilEmpty.string_of_uint (Nat.to_uint n).

(** ** Uint8Array *)

(** A [Uint8Array] is a window on an [ArrayBuffer]: the octets of the
    array, with what the buffer holds before and after them.  An array
    made from its octets spans its buffer; a subarray, or an array cut
    from a pool, does not. *)
Module Uint8Array.

Record t : Type := make {
  before : Bytes;
  octets : Bytes;
  after : Bytes
}.

(** [a.buffer]: the whole [ArrayBuffer]. *)
Definition buffer (a : t) : Bytes := before a ++ octets a ++ after a.

(** [a.byteOffset] and [a.byteLength]. *)
Definition byteOffset (a : t) : nat := length (before a).
Definition byteLength (a : t) : nat := length (octets a).

(** The array that holds [bs] and spans its own buffer. *)
Definition fresh (bs : list byte) : t := make [] bs [].

End Uint8Array.

#[warnings="-uniform-inheritance"]
Coercion Uint8Array.fresh : list >-> Uint8Array.t.

(** ** Numbers *)

(** What [Number(x)] is for an [x] that denotes an integer: an
    integer-valued double, or an infinity. *)
Inductive number : Type :=
| Finite (value : Z)
| Infinity (negative : bool).

(** The double nearest to the non-negative integer [a], ties to even: [a]
    itself up to 53 bits, else its 53 leading bits rounded; nothing when
    the rounding reaches [2^1024]. *)
Definition roundToDouble (a : Z) : option Z :=
  let e := Z.log2 a - 52 in
  if e <=? 0 then Some a
  else
    let q := a / 2 ^ e in
    let r := a mod 2 ^ e in
    let half := 2 ^ (e - 1) in
    let q' :=
      if r <? half then q
      else if half <? r then q + 1
      else if Z.even q then q else q + 1 in
    let rounded := q' * 2 ^ e in
    if 2 ^ 1024 <=? rounded then None else Some rounded.

(** ** DataView *)

(** [new DataView(buffer)]: a view of a whole [ArrayBuffer], from its
    first octet on.  The view and the array it was taken from share the
    buffer, so a [set] is seen by the array: the setters return the buffer
    after the write. *)
Module DataView.

(** The integer a number is converted to before it is stored (ToInt8,
    ToInt16, ToInt32 before the reduction modulo [2^w]): an infinity
    counts as 0. *)
Definition integerOf (value : number) : Z :=
  match value with
  | Finite z => z
  | Infinity _ => 0
  end.

(** Octets in storage order for little-endian order [le]. *)
Definition order (littleEndian : bool) (le : Bytes) : Bytes :=
  if littleEndian then le else rev le.

(** GetViewValue for a signed integer of [size] octets: a [RangeError]
    when [byteOffset + size] exceeds the view. *)
Definition getInt (size : nat) (view : Bytes) (byteOffset : nat)
    (littleEndian : bool) : Result Z :=
  if (length view <? byteOffset + size)%nat then Throw RangeError
  else
    let raw := firstn size (skipn byteOffset view) in
    Ok (toSigned (8 * Z.of_nat size) (le_to_Z (order littleEndian raw))).

(** SetViewValue: the integer is reduced modulo [2^(8*size)] and stored;
    a [RangeError] only when the access is out of bounds. *)
Definition setInt (size : nat) (view : Bytes) (byteOffset : nat)
    (value : Z) (littleEndian : bool) : Result Bytes :=
  if (length view <? byteOffset + size)%nat then Throw RangeError
  else
    let raw := order littleEndian (Z_to_le size value) in
    Ok (firstn byteOffset view ++ raw ++ skipn (byteOffset + size) view).

Definition getInt8 (view : Bytes) (byteOffset : nat) : Result Z :=
  getInt 1 view byteOffset true.
Definition setInt8 (view : Bytes) (byteOffset : nat) (value : number)
    : Result Bytes :=
  setInt 1 view byteOffset (integerOf value) true.

Definition getInt16 := getInt 2.
Definition setInt16 (view : Bytes) (byteOffset : nat) (value : number)
    (littleEndian : bool) : Result Bytes :=
  setInt 2 view byteOffset (integerOf value) littleEndian.
Definition getInt32 := getInt 4.
Definition setInt32 (view : Bytes) (byteOffset : nat) (value : number)
    (littleEndian : bool) : Result Bytes :=
  setInt 4 view byteOffset (integerOf value) littleEndian.

(** The 64-bit accessors work on a bigint, an integer as it is. *)
Definition getBigInt64 := getInt 8.
Definition setBigInt64 := setInt 8.

End DataView.

(** ** Number-like inputs *)

(** A number-like is taken as the integer it denotes. *)
Definition NumLike : Type := Z.

(** [Number(numLike)] of the runtime: the double nearest to the integer,
    which is the integer itself up to [2^53] in magnitude (and for any
    integer that is a double), a neighbour beyond, an infinity from
    [2^1024] on. *)
Definition Number (numLike : NumLike) : number :=
  match roundToDouble (Z.abs numLike) with
  | Some a => Finite (Z.sgn numLike * a)
  | None => Infinity (numLike <? 0)
  end.

(** Modelled from the spec: [numFrom] lives in num/index.js, which is not
    among the sources.  Sections 4.2 and 6: the conversion of the input to
    an arbitrary-precision integer, done before anything else. *)
Definition numFrom (numLike : NumLike) : Z := numLike.

(** A bytes-like is taken as the [Uint8Array] it is or is normalised
    to. *)
Definition BytesLike : Type := Uint8Array.t.

(** Modelled from the spec: [bytesFrom] lives in bytes/index.js, which is
    not among the sources.  Sections 3 and 6: it normalises a bytes-like
    input into a byte buffer; a [Uint8Array] comes back as it is. *)
Definition bytesFrom (bytesLike : BytesLike) : Uint8Array.t := bytesLike.

(** ** Codec *)

Record Codec (Encodable Decoded : Type) : Type := mkCodec {
  encode : Encodable -> Result Bytes;
  decode : BytesLike -> Result Decoded;
  byteLength : option nat
}.

Arguments mkCodec {Encodable Decoded} encode decode byteLength.
Arguments encode {Encodable Decoded} c _.
Arguments decode {Encodable Decoded} c _.
Arguments byteLength {Encodable Decoded} c.

(** Modelled from the spec: [Codec.from] lives in molecule/codec.js, which
    is not among the sources.  Section 3: a codec that has a static length
    rejects, on decode, any buffer whose length differs; section 4.1: with
    a [DecodeError] that carries the expected and the actual size.  The
    check comes before the decode function it was given; construction
    itself looks at no data. *)
Definition Codec_from {Encodable Decoded : Type}
    (encode : Encodable -> Result Bytes)
    (decode : BytesLike -> Result Decoded)
    (byteLength : option nat) : Codec Encodable Decoded :=
  mkCodec encode
    (fun decodable =>
       match byteLength with
       | Some expected =>
           let actual := Uint8Array.byteLength (bytesFrom decodable) in
           if negb (actual =? expected)%nat
           then Throw (DecodeError (Z.of_nat expected) (Z.of_nat actual))
           else decode decodable
       | None => decode decodable
       end)
    byteLength.

(** ** The combinators of molecule/codec.js *)

Module codec.

(** Modelled from the spec: [option] lives in molecule/codec.js, which is
    not among the sources.  Section 4.3: absent encodes to no octet at
    all, present to the inner encoding; an empty buffer decodes to
    absent, any other one through the inner codec, whose failure goes
    through unchanged; the static length is always absent. *)
Definition option {Encodable Decoded : Type}
    (innerCodec : Codec Encodable Decoded)
    : Codec (Datatypes.option Encodable) (Datatypes.option Decoded) :=
  Codec_from
    (fun value =>
       match value with
       | None => Ok []
       | Some v => encode innerCodec v
       end)
    (fun bufferLike =>
       let buffer := bytesFrom bufferLike in
       match Uint8Array.octets buffer with
       | [] => Ok None
       | _ :: _ =>
           let! v := decode innerCodec buffer in
           Ok (Some v)
       end)
    None.

(** Modelled from the spec: the 4-octet little-endian fields of the
    vector layouts (section 6), written and read. *)
Definition uint32To (n : Z) : Bytes := Z_to_le 4 n.
Definition uint32From (bs : Bytes) : Z := le_to_Z bs.

(** The octets of [buffer] from [start] up to [stop], as
    [buffer.slice(start, stop)] gives them, in an array of their own. *)
Definition slice (buffer : Bytes) (start stop : nat) : Bytes :=
  firstn (stop - start) (skipn start buffer).

Section Vector.
Context {Encodable Decoded : Type}.
Variable itemCodec : Codec Encodable Decoded.

(** Modelled from the spec: the items encoded in order, from index [i]
    on; a failure is tagged with the index of the item (section 7). *)
Fixpoint encodeItems (i : nat) (items : list Encodable)
    : Result (list Bytes) :=
  match items with
  | [] => Ok []
  | item :: rest =>
      match encode itemCodec item with
      | Throw e => Throw (AtIndex i e)
      | Ok encoded =>
          let! others := encodeItems (S i) rest in
          Ok (encoded :: others)
      end
  end.

(** Modelled from the spec: item [i] decoded from its octets, a failure
    tagged with [i] (sections 4.4 and 7). *)
Definition decodeItem (i : nat) (chunk : Bytes) : Result Decoded :=
  match decode itemCodec chunk with
  | Throw e => Throw (AtIndex i e)
  | Ok v => Ok v
  end.

(** Modelled from the spec: [count] consecutive chunks of [L] octets
    decoded in order, from index [i] on (section 4.4). *)
Fixpoint decodeChunks (L : nat) (count : nat) (i : nat) (body : Bytes)
    : Result (list Decoded) :=
  match count with
  | O => Ok []
  | S k =>
      let! v := decodeItem i (firstn L body) in
      let! others := decodeChunks L k (S i) (skipn L body) in
      Ok (v :: others)
  end.

(** Modelled from the spec: the offset table of the variable layout,
    where each encoding starts, from [start] on, and last where the last
    one ends (section 4.4). *)
Fixpoint offsetsFrom (start : Z) (encoded : list Bytes) : list Z :=
  match encoded with
  | [] => [start]
  | e :: rest => start :: offsetsFrom (start + Z.of_nat (length e)) rest
  end.

(** Modelled from the spec: the offsets never go down (section 4.4). *)
Fixpoint nonDecreasing (offsets : list Z) : bool :=
  match offsets with
  | a :: ((b :: _) as rest) => (a <=? b) && nonDecreasing rest
  | _ => true
  end.

(** Modelled from the spec: items [i], [i+1], ... decoded from the
    ranges between consecutive offsets (section 4.4). *)
Fixpoint decodeRanges (buffer : Bytes) (i : nat) (offsets : list Z)
    : Result (list Decoded) :=
  match offsets with
  | a :: ((b :: _) as rest) =>
      let! v := decodeItem i (slice buffer (Z.to_nat a) (Z.to_nat b)) in
      let! others := decodeRanges buffer (S i) rest in
      Ok (v :: others)
  | _ => Ok []
  end.

(** Modelled from the spec: the fixed-item layout of section 4.4, a
    4-octet little-endian count and then the items, [L] octets each.
    Decoding reads the count, requires the rest to be exactly
    [count * L] octets and decodes the chunks in order. *)
Definition fixedItemVec (L : nat)
    : Codec (list Encodable) (list Decoded) :=
  Codec_from
    (fun items =>
       let! encoded := encodeItems 0 items in
       Ok (uint32To (Z.of_nat (length items)) ++ concat encoded))
    (fun bufferLike =>
       let buffer := Uint8Array.octets (bytesFrom bufferLike) in
       if (length buffer <? 4)%nat
       then Throw (DecodeError 4 (Z.of_nat (length buffer)))
       else
         let count := uint32From (slice buffer 0 4) in
         let body := skipn 4 buffer in
         if negb (Z.of_nat (length body) =? count * Z.of_nat L)
         then Throw (DecodeError (4 + count * Z.of_nat L)
                                 (Z.of_nat (length buffer)))
         else decodeChunks L (Z.to_nat count) 0 body)
    None.

(** Modelled from the spec: the variable-item layout of section 4.4, a
    4-octet little-endian total length, [N+1] offsets and the items
    back to back.  Decoding checks the total length against the
    buffer, takes the item count from the first offset (which is
    [4 * (count + 2)], the end of the offset table), reads the table,
    checks that it never goes down and ends at the total length, and
    decodes each range. *)
Definition dynItemVec : Codec (list Encodable) (list Decoded) :=
  Codec_from
    (fun items =>
       let! encoded := encodeItems 0 items in
       let header := 4 * (Z.of_nat (length items) + 2) in
       let offsets := offsetsFrom header encoded in
       let total := header + Z.of_nat (length (concat encoded)) in
       Ok (uint32To total ++ flat_map uint32To offsets ++ concat encoded))
    (fun bufferLike =>
       let buffer := Uint8Array.octets (bytesFrom bufferLike) in
       let size := Z.of_nat (length buffer) in
       if (length buffer <? 4)%nat then Throw (DecodeError 4 size)
       else
         let total := uint32From (slice buffer 0 4) in
         if negb (total =? size) then Throw (DecodeError total size)
         else if (length buffer <? 8)%nat then Throw (DecodeError 8 size)
         else
           let first := uint32From (slice buffer 4 8) in
           if negb ((first mod 4 =? 0) && (8 <=? first) && (first <=? size))
           then Throw (DecodeError 8 first)
           else
             let count := Z.to_nat (first / 4 - 2) in
             let offsets :=
               map (fun i => uint32From (slice buffer (4 + 4 * i) (8 + 4 * i)))
                   (seq 0 (S count)) in
             if negb (nonDecreasing offsets)
             then Throw (DecodeError first (last offsets 0))
             else if negb (last offsets 0 =? total)
             then Throw (DecodeError total (last offsets 0))
             else decodeRanges buffer 0 offsets)
    None.

(** Modelled from the spec: [vector] lives in molecule/codec.js, which
    is not among the sources.  Section 4.4: the layout follows the
    static length of the item codec, and the static length of the
    vector is always absent. *)
Definition vector : Codec (list Encodable) (list Decoded) :=
  match byteLength itemCodec with
  | Some L => fixedItemVec L
  | None => dynItemVec
  end.

End Vector.

End codec.

(** ** part_000: the revision whose codecs check the buffer size
    themselves, through [fixedBytesFrom], and read the [ArrayBuffer] of
    the buffer *)

Module Part000.

(** [fixedBytesFrom]: the buffer, or an [Error] naming the expected and
    the actual size. *)
Definition fixedBytesFrom (bufferLike : BytesLike) (byteLength : nat)
    : Result Uint8Array.t :=
  let buffer := bytesFrom bufferLike in
  if negb (Uint8Array.byteLength buffer =? byteLength)%nat then
    Throw (Error ("int" ++ String_of_nat byteLength
                  ++ ": invalid buffer size, expected "
                  ++ String_of_nat byteLength
                  ++ ", but got "
                  ++ String_of_nat (Uint8Array.byteLength buffer)))
  else Ok buffer.

(** [Int8]: built without a [byteLength]. *)
Definition Int8 : Codec NumLike Z :=
  Codec_from
    (fun numLike =>
       let encoded : Bytes := [x00] in
       DataView.setInt8 encoded 0 (Number numLike))
    (fun bufferLike =>
       let! buffer := fixedBytesFrom bufferLike 1 in
       DataView.getInt8 (Uint8Array.buffer buffer) 0)
    None.

Definition Int8Opt := codec.option Int8.
Definition Int8Vec := codec.vector Int8.

Definition int16Number (littleEndian : bool) : Codec NumLike Z :=
  let byteLength := 2%nat in
  Codec_from
    (fun numLike =>
       let encoded : Bytes := [x00; x00] in
       DataView.setInt16 encoded 0 (Number numLike) littleEndian)
    (fun bufferLike =>
       let! buffer := fixedBytesFrom bufferLike byteLength in
       DataView.getInt16 (Uint8Array.buffer buffer) 0 littleEndian)
    (Some byteLength).

Definition Int16LE := int16Number true.
Definition Int16BE := int16Number false.
Definition Int16 := Int16LE.
Definition Int16Opt := codec.option Int16.
Definition Int16Vec := codec.vector Int16.

Definition int32Number (littleEndian : bool) : Codec NumLike Z :=
  let byteLength := 4%nat in
  Codec_from
    (fun numLike =>
       let encoded : Bytes := [x00; x00; x00; x00] in
       DataView.setInt32 encoded 0 (Number numLike) littleEndian)
    (fun bufferLike =>
       let! buffer := fixedBytesFrom bufferLike byteLength in
       DataView.getInt32 (Uint8Array.buffer buffer) 0 littleEndian)
    (Some byteLength).

Definition Int32LE := int32Number true.
Definition Int32BE := int32Number false.
Definition Int32 := Int32LE.
Definition Int32Opt := codec.option Int32.
Definition Int32Vec := codec.vector Int32.

Definition int64 (littleEndian : bool) : Codec NumLike Z :=
  let byteLength := 8%nat in
  Codec_from
    (fun numLike =>
       let encoded : Bytes :=
         [x00; x00; x00; x00; x00; x00; x00; x00] in
       DataView.setBigInt64 encoded 0 (numFrom numLike) littleEndian)
    (fun bufferLike =>
       let! buffer := fixedBytesFrom bufferLike byteLength in
       DataView.getBigInt64 (Uint8Array.buffer buffer) 0 littleEndian)
    (Some byteLength).

Definition Int64LE := int64 true.
Definition Int64BE := int64 false.
Definition Int64 := Int64LE.
Definition Int64Opt := codec.option Int64.
Definition Int64Vec := codec.vector Int64.

End Part000.

(** ** packages/core/src/molecule/signed.ts: the revision whose codecs
    leave the buffer size to their [byteLength] and read the [ArrayBuffer]
    of the buffer *)

Module Signed.

Definition Int8 : Codec NumLike Z :=
  Codec_from
    (fun numLike =>
       let encoded := Uint8Array_new 1 in
       DataView.setInt8 encoded 0 (Number numLike))
    (fun bytesLike =>
       let bytes := bytesFrom bytesLike in
       DataView.getInt8 (Uint8Array.buffer bytes) 0)
    (Some 1%nat).

Definition Int8Opt := codec.option Int8.
Definition Int8Vec := codec.vector Int8.

Definition int16Number (littleEndian : bool) : Codec NumLike Z :=
  let byteLength := 2%nat in
  Codec_from
    (fun numLike =>
       let encoded := Uint8Array_new byteLength in
       DataView.setInt16 encoded 0 (Number numLike) littleEndian)
    (fun bytesLike =>
       let bytes := bytesFrom bytesLike in
       DataView.getInt16 (Uint8Array.buffer bytes) 0 littleEndian)
    (Some byteLength).

Definition Int16LE := int16Number true.
Definition Int16BE := int16Number false.
Definition Int16 := Int16LE.
Definition Int16Opt := codec.option Int16.
Definition Int16Vec := codec.vector Int16.

Definition int32Number (littleEndian : bool) : Codec NumLike Z :=
  let byteLength := 4%nat in
  Codec_from
    (fun numLike =>
       let encoded := Uint8Array_new byteLength in
       DataView.setInt32 encoded 0 (Number numLike) littleEndian)
    (fun bytesLike =>
       let bytes := bytesFrom bytesLike in
       DataView.getInt32 (Uint8Array.buffer bytes) 0 littleEndian)
    (Some byteLength).

Definition Int32LE := int32Number true.
Definition Int32BE := int32Number false.
Definition Int32 := Int32LE.
Definition Int32Opt := codec.option Int32.
Definition Int32Vec := codec.vector Int32.

Definition int64 (littleEndian : bool) : Codec NumLike Z :=
  let byteLength := 8%nat in
  Codec_from
    (fun numLike =>
       let encoded := Uint8Array_new byteLength in
       DataView.setBigInt64 encoded 0 (numFrom numLike) littleEndian)
    (fun bytesLike =>
       let bytes := bytesFrom bytesLike in
       DataView.getBigInt64 (Uint8Array.buffer bytes) 0 littleEndian)
    (Some byteLength).

Definition Int64LE := int64 true.
Definition Int64BE := int64 false.
Definition Int64 := Int64LE.
Definition Int64Opt := codec.option Int64.
Definition Int64Vec := codec.vector Int64.

End Signed.

(** The primitive codecs of a revision, each with its width in bits and
    its byte order. *)
Definition Part000_primitives : list (Codec NumLike Z * Z * bool) :=
  [ (Part000.Int8, 8, true);
    (Part000.Int16LE, 16, true); (Part000.Int16BE, 16, false);
    (Part000.Int32LE, 32, true); (Part000.Int32BE, 32, false);
    (Part000.Int64LE, 64, true); (Part000.Int64BE, 64, false) ].

Definition Signed_primitives : list (Codec NumLike Z * Z * bool) :=
  [ (Signed.Int8, 8, true);
    (Signed.Int16LE, 16, true); (Signed.Int16BE, 16, false);
    (Signed.Int32LE, 32, true); (Signed.Int32BE, 32, false);
    (Signed.Int64LE, 64, true); (Signed.Int64BE, 64, false) ].

Definition primitives : list (Codec NumLike Z * Z * bool) :=
  Part000_primitives ++ Signed_primitives.

(** The static length the spec gives a codec of width [w]: [w / 8]. *)
Definition staticLength (w : Z) : nat := Z.to_nat (w / 8).

(** The message of [fixedBytesFrom] for an expected and an actual size. *)
Definition sizeMessage (expected actual : nat) : string :=
  ("int" ++ String_of_nat expected ++ ": invalid buffer size, expected "
   ++ String_of_nat expected ++ ", but got " ++ String_of_nat actual)%string.

(** The offset table a buffer holds for [count] items: [count + 1] fields
    after the total length. *)
Definition offsetTable (buffer : Bytes) (count : nat) : list Z :=
  map (fun i => codec.uint32From (codec.slice buffer (4 + 4 * i) (8 + 4 * i)))
      (seq 0 (S count)).

(** What decoding requires of a buffer in the variable-item layout, for
    the offsets it holds: the total-length field is the length of the
    buffer, the first offset is the end of the header and of the table,
    the offsets never go down, and the last one is the total length. *)
Definition dynLayout (buffer : Bytes) (offsets : list Z) : Prop :=
  codec.uint32From (codec.slice buffer 0 4) = Z.of_nat (length buffer)
  /\ exists count : nat,
       offsets = offsetTable buffer count
       /\ nth 0 offsets 0 = 4 * (Z.of_nat count + 2)
       /\ codec.nonDecreasing offsets = true
       /\ last offsets 0 = Z.of_nat (length buffer).

(** The integer a primitive codec of width [w] stores for the input [n]:
    what [Number] makes of it for the widths up to 32, what [numFrom]
    makes of it at 64. *)
Definition inputValue (w : Z) (n : NumLike) : Z :=
  if w =? 64 then numFrom n else DataView.integerOf (Number n).

(** The inputs a codec of width [w] takes as they are: any integer at
    width 64, the integers up to [2^53] in magnitude below. *)
Definition exactInput (w : Z) (n : Z) : Prop :=
  w = 64 \/ Z.abs n <= 2 ^ 53.

(** The error a codec has for a buffer of [actual] octets where it
    expects [expected]: the one of [Codec.from] when the codec declares a
    [byteLength], the one of [fixedBytesFrom] when it does not. *)
Definition lengthError {Encodable Decoded : Type}
    (c : Codec Encodable Decoded) (expected actual : nat) : Exn :=
  match byteLength c with
  | Some _ => DecodeError (Z.of_nat expected) (Z.of_nat actual)
  | None => Error (sizeMessage expected actual)
  end.


(** The octets a primitive codec of width [w] and byte order [le] writes
    for [n]. *)
Definition itemBytes (w : Z) (le : bool) (n : Z) : Bytes :=
  DataView.order le (Z_to_le (staticLength w) n).

(** The most significant octet of a buffer read in byte order [le]: the
    last one in little-endian order, the first one in big-endian order. *)
Definition mostSignificant (le : bool) (buffer : Bytes) : byte :=
  if le then last buffer x00 else hd x00 buffer.


(** The functions that build a codec from a byte order, each with the
    width it builds. *)
Definition factories : list ((bool -> Codec NumLike Z) * Z) :=
  [ (Part000.int16Number, 16); (Part000.int32Number, 32); (Part000.int64, 64);
    (Signed.int16Number, 16); (Signed.int32Number, 32); (Signed.int64, 64) ].

(** The little-endian codecs of a revision from the narrowest to the
    widest, each with its width. *)
Definition Part000_littleEndian : list (Codec NumLike Z * Z) :=
  [ (Part000.Int8, 8); (Part000.Int16LE, 16);
    (Part000.Int32LE, 32); (Part000.Int64LE, 64) ].

Definition Signed_littleEndian : list (Codec NumLike Z * Z) :=
  [ (Signed.Int8, 8); (Signed.Int16LE, 16);
    (Signed.Int32LE, 32); (Signed.Int64LE, 64) ].

(** * Properties *)

(** ** Octets and little-endian numerals *)

Lemma Z_of_byte_range (b : byte) : 0 <= Z_of_byte b < 256.
Proof.
  unfold Z_of_byte. pose proof (Byte.to_N_bounded b). lia.
Qed.

Lemma Z_of_byte_of_Z (z : Z) : Z_of_byte (byte_of_Z z) = z mod 256.
Proof.
  unfold byte_of_Z, Z_of_byte.
  pose proof (Z.mod_pos_bound z 256 ltac:(lia)) as Hm.
  destruct (Byte.of_N (Z.to_N (z mod 256))) as [b|] eqn:E.
  - apply Byte.to_of_N in E. rewrite E. lia.
  - apply Byte.of_N_None_iff in E. lia.
Qed.

Lemma Z_to_le_length (n : nat) (z : Z) : length (Z_to_le n z) = n.
Proof.
  revert z. induction n as [|n IH]; intros z; simpl; [reflexivity|].
  now rewrite IH.
Qed.

Lemma le_to_Z_to_le (n : nat) (z : Z) :
  le_to_Z (Z_to_le n z) = z mod 2 ^ (8 * Z.of_nat n).
Proof.
  revert z. induction n as [|n IH]; intros z.
  - simpl. now rewrite Z.mod_1_r.
  - cbn [Z_to_le le_to_Z]. rewrite IH, Z_of_byte_of_Z.
    replace (8 * Z.of_nat (S n)) with (8 + 8 * Z.of_nat n) by lia.
    rewrite Z.pow_add_r by lia. change (2 ^ 8) with 256.
    rewrite (Z.rem_mul_r z 256 (2 ^ (8 * Z.of_nat n))) by lia.
    reflexivity.
Qed.

(** ** Two's complement *)

Lemma wrap_small (w n : Z) : 0 < w -> in_range w n -> wrap w n = n.
Proof.
  intros Hw [Hlo Hhi]. unfold wrap, toSigned.
  assert (Hp : 2 ^ w = 2 * 2 ^ (w - 1)).
  { replace w with (1 + (w - 1)) at 1 by lia. rewrite Z.pow_add_r by lia. reflexivity. }
  assert (0 < 2 ^ (w - 1)) by (apply Z.pow_pos_nonneg; lia).
  destruct (Z_lt_le_dec n 0) as [Hneg|Hpos].
  - replace (n mod 2 ^ w) with (n + 2 ^ w).
    + destruct (n + 2 ^ w <? 2 ^ (w - 1)) eqn:E.
      * apply Z.ltb_lt in E. lia.
      * lia.
    + apply Z.mod_unique with (q := -1); lia.
  - rewrite Z.mod_small by lia.
    destruct (n <? 2 ^ (w - 1)) eqn:E; [reflexivity|].
    apply Z.ltb_ge in E. lia.
Qed.

(** ** DataView *)

Lemma order_length (littleEndian : bool) (bs : Bytes) :
  length (DataView.order littleEndian bs) = length bs.
Proof.
  destruct littleEndian; simpl; [reflexivity|apply length_rev].
Qed.

Lemma order_involutive (littleEndian : bool) (bs : Bytes) :
  DataView.order littleEndian (DataView.order littleEndian bs) = bs.
Proof.
  destruct littleEndian; simpl; [reflexivity|apply rev_involutive].
Qed.

(** A write at offset 0 into a fresh array of [size] octets succeeds and
    leaves exactly the [size] octets of the value. *)
Lemma setInt_fresh (size : nat) (value : Z) (littleEndian : bool) :
  DataView.setInt size (Uint8Array_new size) 0 value littleEndian
  = Ok (DataView.order littleEndian (Z_to_le size value)).
Proof.
  unfold DataView.setInt, Uint8Array_new. rewrite repeat_length.
  replace (size <? 0 + size)%nat with false
    by (symmetry; apply Nat.ltb_ge; lia).
  cbn [firstn app Nat.add].
  rewrite skipn_all2 by (rewrite repeat_length; lia).
  now rewrite app_nil_r.
Qed.

(** A read at offset 0 of a view of at least [size] octets succeeds and
    sees the first [size] octets only. *)
Lemma getInt_prefix (size : nat) (view : Bytes) (littleEndian : bool) :
  (size <= length view)%nat ->
  DataView.getInt size view 0 littleEndian
  = Ok (toSigned (8 * Z.of_nat size)
          (le_to_Z (DataView.order littleEndian (firstn size view)))).
Proof.
  intros Hlen. unfold DataView.getInt.
  replace (length view <? 0 + size)%nat with false
    by (symmetry; apply Nat.ltb_ge; lia).
  reflexivity.
Qed.

(** ** Numbers that are stored as they are *)

Lemma roundToDouble_exact (a : Z) :
  0 <= a <= 2 ^ 53 -> roundToDouble a = Some a.
Proof.
  intros [H0 H1].
  destruct (Z.eq_dec a (2 ^ 53)) as [->|Hne]; [vm_compute; reflexivity|].
  assert (Hlog : Z.log2 a < 53).
  { destruct (Z.eq_dec a 0) as [->|Hnz]; [simpl; lia|].
    apply Z.log2_lt_pow2; lia. }
  unfold roundToDouble.
  replace (Z.log2 a - 52 <=? 0) with true by (symmetry; apply Z.leb_le; lia).
  reflexivity.
Qed.

(** Up to [2^53] in magnitude, [Number] changes nothing. *)
Lemma Number_exact (n : Z) : Z.abs n <= 2 ^ 53 -> Number n = Finite n.
Proof.
  intros H. unfold Number.
  rewrite roundToDouble_exact by (pose proof (Z.abs_nonneg n); lia).
  f_equal. destruct n; simpl; lia.
Qed.

Lemma inputValue_exact (w n : Z) : exactInput w n -> inputValue w n = n.
Proof.
  unfold exactInput, inputValue. intros [->|H]; [reflexivity|].
  destruct (w =? 64); [reflexivity|]. now rewrite Number_exact.
Qed.

Lemma in_range_exact (w n : Z) :
  w = 8 \/ w = 16 \/ w = 32 \/ w = 64 -> in_range w n -> exactInput w n.
Proof.
  unfold in_range, exactInput.
  intros [ -> | [ -> | [ -> | -> ] ] ] H; [right|right|right|now left];
    simpl in H |- *; lia.
Qed.

Lemma buffer_fresh (bs : Bytes) : Uint8Array.buffer bs = bs.
Proof. unfold Uint8Array.buffer. simpl. apply app_nil_r. Qed.

Lemma buffer_length (b : Uint8Array.t) :
  (Uint8Array.byteLength b <= length (Uint8Array.buffer b))%nat.
Proof.
  unfold Uint8Array.byteLength, Uint8Array.buffer.
  rewrite !length_app. lia.
Qed.

(** ** The primitive codecs, case by case *)

(** Membership [H] in a list of primitives, one codec at a time; [tac]
    closes each case. *)
Ltac each_primitive H tac :=
  simpl in H;
  repeat (destruct H as [H|H]; [injection H; intros; subst; tac|]);
  try contradiction.

Lemma width_cases (c : Codec NumLike Z) (w : Z) (le : bool) :
  In (c, w, le) primitives -> w = 8 \/ w = 16 \/ w = 32 \/ w = 64.
Proof.
  unfold primitives, Part000_primitives, Signed_primitives.
  intros H. each_primitive H tauto.
Qed.

Lemma width_staticLength (w : Z) :
  w = 8 \/ w = 16 \/ w = 32 \/ w = 64 ->
  8 * Z.of_nat (staticLength w) = w /\ 0 < w.
Proof.
  intros [ -> | [ -> | [ -> | -> ] ] ]; vm_compute; split; reflexivity.
Qed.

(** Every primitive codec, of either revision, encodes by one write into
    a fresh array of its size. *)
Lemma encode_shape (c : Codec NumLike Z) (w : Z) (le : bool) (n : Z) :
  In (c, w, le) primitives ->
  encode c n
  = Ok (DataView.order le (Z_to_le (staticLength w) (inputValue w n))).
Proof.
  unfold primitives, Part000_primitives, Signed_primitives.
  intros H. each_primitive H ltac:(exact (setInt_fresh _ _ _)).
Qed.

(** Every primitive codec decodes a buffer of its size by one read at the
    start of the [ArrayBuffer] of the buffer, and has its length error for
    any other buffer. *)
Lemma decode_shape (c : Codec NumLike Z) (w : Z) (le : bool)
    (b : BytesLike) :
  In (c, w, le) primitives ->
  decode c b
  = if (Uint8Array.byteLength b =? staticLength w)%nat
    then DataView.getInt (staticLength w) (Uint8Array.buffer b) 0 le
    else Throw (lengthError c (staticLength w) (Uint8Array.byteLength b)).
Proof.
  unfold primitives, Part000_primitives, Signed_primitives.
  intros H.
  each_primitive H ltac:(
    cbv beta iota zeta delta
      [decode byteLength lengthError Codec_from bytesFrom bind negb
       Part000.fixedBytesFrom
       Part000.Int8 Part000.Int16LE Part000.Int16BE Part000.Int32LE
       Part000.Int32BE Part000.Int64LE Part000.Int64BE
       Part000.int16Number Part000.int32Number Part000.int64
       Signed.Int8 Signed.Int16LE Signed.Int16BE Signed.Int32LE
       Signed.Int32BE Signed.Int64LE Signed.Int64BE
       Signed.int16Number Signed.int32Number Signed.int64];
    match goal with
    | |- context [staticLength ?w] =>
        let L := eval vm_compute in (staticLength w) in
        change (staticLength w) with L
    end;
    destruct (Uint8Array.byteLength b =? _)%nat; reflexivity).
Qed.

(** A buffer of the static length is decoded from the first octets of
    its [ArrayBuffer]. *)
Lemma decode_match (c : Codec NumLike Z) (w : Z) (le : bool)
    (b : BytesLike) :
  In (c, w, le) primitives ->
  Uint8Array.byteLength b = staticLength w ->
  decode c b
  = Ok (toSigned w
          (le_to_Z (DataView.order le
                      (firstn (staticLength w) (Uint8Array.buffer b))))).
Proof.
  intros Hin Hlen.
  destruct (width_staticLength w (width_cases _ _ _ Hin)) as [Hw _].
  rewrite (decode_shape _ _ _ b Hin), Hlen, Nat.eqb_refl.
  rewrite getInt_prefix by (rewrite <- Hlen; apply buffer_length).
  now rewrite Hw.
Qed.

(** A buffer of another length is refused with the length error of the
    codec. *)
Lemma decode_mismatch (c : Codec NumLike Z) (w : Z) (le : bool)
    (b : BytesLike) :
  In (c, w, le) primitives ->
  Uint8Array.byteLength b <> staticLength w ->
  decode c b
  = Throw (lengthError c (staticLength w) (Uint8Array.byteLength b)).
Proof.
  intros Hin Hne. rewrite (decode_shape _ _ _ b Hin).
  apply Nat.eqb_neq in Hne. now rewrite Hne.
Qed.

(** An array that spans its buffer and has the static length is decoded
    from its own octets. *)
Lemma decode_exact (c : Codec NumLike Z) (w : Z) (le : bool) (buffer : Bytes) :
  In (c, w, le) primitives ->
  length buffer = staticLength w ->
  decode c buffer = Ok (toSigned w (le_to_Z (DataView.order le buffer))).
Proof.
  intros Hin Hlen.
  rewrite (decode_match c w le buffer Hin) by exact Hlen.
  rewrite buffer_fresh, firstn_all2 by lia. reflexivity.
Qed.

(** Decoding what a primitive codec encoded gives the stored integer
    reduced into the signed range of the width. *)
Lemma decode_encode_wrap (c : Codec NumLike Z) (w : Z) (le : bool) (n : Z) :
  In (c, w, le) primitives ->
  (let! bs := encode c n in decode c bs) = Ok (wrap w (inputValue w n)).
Proof.
  intros Hin. rewrite (encode_shape _ _ _ n Hin). cbn [bind].
  rewrite (decode_exact _ _ _ _ Hin)
    by (rewrite order_length, Z_to_le_length; reflexivity).
  rewrite order_involutive, le_to_Z_to_le.
  destruct (width_staticLength w (width_cases _ _ _ Hin)) as [-> _].
  reflexivity.
Qed.

Lemma in_range_inputValue (c : Codec NumLike Z) (w : Z) (le : bool) (n : Z) :
  In (c, w, le) primitives -> in_range w n -> inputValue w n = n.
Proof.
  intros Hin Hn. apply inputValue_exact.
  exact (in_range_exact w n (width_cases _ _ _ Hin) Hn).
Qed.

(** ** Round trip *)

(** C1. For every primitive signed-integer codec (width 8, 16, 32 or 64
    bits, either byte order, either revision of the file) and every
    integer [n] in the signed range of the width, decoding the encoding
    of [n] gives [n] back. *)
Theorem roundtrip_primitive (c : Codec NumLike Z) (w : Z) (le : bool) (n : Z) :
  In (c, w, le) primitives ->
  in_range w n ->
  (let! bs := encode c n in decode c bs) = Ok n.
Proof.
  intros Hin Hn. rewrite (decode_encode_wrap _ _ _ n Hin).
  rewrite (in_range_inputValue c w le n Hin Hn).
  destruct (width_staticLength w (width_cases _ _ _ Hin)) as [_ Hw].
  now rewrite wrap_small.
Qed.

Lemma roundtrip_primitive_witness :
  (let! bs := encode Signed.Int64BE (- 2 ^ 63) in decode Signed.Int64BE bs)
  = Ok (- 2 ^ 63).
Proof.
  apply (roundtrip_primitive Signed.Int64BE 64 false (- 2 ^ 63)).
  - unfold primitives. apply in_or_app. right. simpl. tauto.
  - unfold in_range. simpl. lia.
Defined.

(** ** Byte-exact encodings *)


(** ** Inputs outside the signed range *)

(** C9, as it is worded, fails: [2^53 + 1] is rounded to [2^53] by
    [Number] before it is stored, so [Int32LE] writes four zero octets
    for it, which do not hold [(2^53 + 1) mod 2^32 = 1]. *)
Lemma encode_rounds_beyond_2_53 :
  encode Signed.Int32LE (2 ^ 53 + 1) = Ok [x00; x00; x00; x00]
  /\ encode Part000.Int32LE (2 ^ 53 + 1) = Ok [x00; x00; x00; x00]
  /\ le_to_Z (DataView.order true [x00; x00; x00; x00])
     <> (2 ^ 53 + 1) mod 2 ^ 32.
Proof.
  split; [vm_compute; reflexivity|].
  split; [vm_compute; reflexivity|].
  vm_compute. discriminate.
Qed.

(** C9, amended.  For every primitive codec of width [w], [encode(n)]
    succeeds for every integer [n] and gives [w/8] octets.  They hold [n]
    modulo [2^w] in the byte order of the codec, and decode to [n]
    reduced into the signed range, for every [n] at width 64 and for
    every [n] up to [2^53] in magnitude at the widths below;
    [Int8.encode(128)] is the octet [0x80], which decodes to [-128]. *)
Theorem encode_reduces_modulo :
  (forall (c : Codec NumLike Z) (w : Z) (le : bool) (n : Z),
     In (c, w, le) primitives ->
     exists bs,
       encode c n = Ok bs
       /\ length bs = staticLength w
       /\ (exactInput w n ->
           le_to_Z (DataView.order le bs) = n mod 2 ^ w
           /\ decode c bs = Ok (wrap w n)))
  /\ encode Signed.Int8 128 = Ok [x80]
  /\ decode Signed.Int8 [x80] = Ok (-128)
  /\ encode Part000.Int8 128 = Ok [x80]
  /\ decode Part000.Int8 [x80] = Ok (-128).
Proof.
  split; [|repeat split; vm_compute; reflexivity].
  intros c w le n Hin.
  destruct (width_staticLength w (width_cases _ _ _ Hin)) as [Hw _].
  exists (DataView.order le (Z_to_le (staticLength w) (inputValue w n))).
  split; [exact (encode_shape _ _ _ n Hin)|].
  split; [now rewrite order_length, Z_to_le_length|].
  intros Hexact. split.
  - rewrite order_involutive, le_to_Z_to_le, Hw.
    now rewrite (inputValue_exact w n Hexact).
  - pose proof (decode_encode_wrap c w le n Hin) as Hd.
    rewrite (encode_shape _ _ _ n Hin) in Hd. cbn [bind] in Hd.
    rewrite Hd. now rewrite (inputValue_exact w n Hexact).
Qed.

Lemma encode_reduces_modulo_witness :
  le_to_Z (DataView.order false [x9c; x40]) = 40000 mod 2 ^ 16
  /\ decode Signed.Int16BE [x9c; x40] = Ok (wrap 16 40000).
Proof.
  destruct (proj1 encode_reduces_modulo Signed.Int16BE 16 false 40000)
    as (bs & Hbs & _ & Hexact).
  - unfold primitives. apply in_or_app. right. simpl. tauto.
  - assert (E : bs = [x9c; x40]).
    { vm_compute in Hbs. now injection Hbs. }
    rewrite <- E. apply Hexact. right. simpl. lia.
Defined.

(** C3, as the spec words it, fails: [128] lies outside [-128..127] and
    [Int8.encode(128)] does not fail, in either revision. *)
Lemma encode_out_of_range_succeeds :
  ~ in_range 8 128
  /\ encode Signed.Int8 128 = Ok [x80]
  /\ encode Part000.Int8 128 = Ok [x80]
  /\ ~ (exists e, encode Signed.Int8 128 = Throw e)
  /\ ~ (exists e, encode Part000.Int8 128 = Throw e).
Proof.
  split; [unfold in_range; simpl; lia|].
  split; [vm_compute; reflexivity|].
  split; [vm_compute; reflexivity|].
  split; intros [e He]; vm_compute in He; discriminate He.
Qed.

(** C3, amended.  [encode(n)] never fails, whatever the integer [n]: no
    range is checked.  For [n] inside the signed range of the width it
    writes exactly [staticLength] octets, which read in the byte order of
    the codec are the two's complement of [n]. *)
Theorem encode_total_twos_complement
    (c : Codec NumLike Z) (w : Z) (le : bool) (n : Z) :
  In (c, w, le) primitives ->
  exists bs,
    encode c n = Ok bs
    /\ (in_range w n ->
        length bs = staticLength w
        /\ toSigned w (le_to_Z (DataView.order le bs)) = n).
Proof.
  intros Hin.
  destruct (width_staticLength w (width_cases _ _ _ Hin)) as [Hw Hpos].
  exists (DataView.order le (Z_to_le (staticLength w) (inputValue w n))).
  split; [exact (encode_shape _ _ _ n Hin)|].
  intros Hn. split; [now rewrite order_length, Z_to_le_length|].
  rewrite order_involutive, le_to_Z_to_le, Hw.
  rewrite (in_range_inputValue c w le n Hin Hn).
  exact (wrap_small w n Hpos Hn).
Qed.

Lemma encode_total_twos_complement_witness :
  exists bs,
    encode Part000.Int32BE (-2) = Ok bs
    /\ (in_range 32 (-2) ->
        length bs = staticLength 32
        /\ toSigned 32 (le_to_Z (DataView.order false bs)) = -2).
Proof.
  apply (encode_total_twos_complement Part000.Int32BE 32 false (-2)).
  unfold primitives. apply in_or_app. left. simpl. tauto.
Defined.

(** ** Static length *)

(** Every primitive codec writes [w/8] octets, and all but the [Int8] of
    part_000 declare that as their [byteLength]. *)
Lemma byteLength_declared (c : Codec NumLike Z) (w : Z) (le : bool) :
  In (c, w, le) primitives ->
  (forall n, exists bs, encode c n = Ok bs /\ length bs = staticLength w)
  /\ (byteLength c = Some (staticLength w)
      \/ (c = Part000.Int8 /\ byteLength c = None)).
Proof.
  intros Hin. split.
  - intros n. eexists. split; [exact (encode_shape _ _ _ n Hin)|].
    now rewrite order_length, Z_to_le_length.
  - revert Hin. unfold primitives, Part000_primitives, Signed_primitives.
    intros H.
    each_primitive H ltac:(first [left; reflexivity | right; split; reflexivity]).
Qed.

(** C7 at the codec that breaks it: the [Int8] of part_000 is built
    without a [byteLength], so it declares no static length although each
    of its encodings is one octet long; the [Int8] of signed.ts declares
    1. *)
Theorem Part000_Int8_declares_no_byteLength :
  byteLength Part000.Int8 = None
  /\ In (Part000.Int8, 8, true) primitives
  /\ staticLength 8 = 1%nat
  /\ byteLength Signed.Int8 = Some 1%nat.
Proof.
  repeat split. unfold primitives. simpl. tauto.
Qed.

(** ** Buffers of another length *)







(** ** The option combinator *)

(** C6. For any inner codec: absent encodes to the empty buffer,
    [present(v)] to the inner encoding of [v]; the empty buffer decodes
    to absent, and a non-empty one to [present] of the inner decoding,
    a failure of the inner codec going through unchanged. *)
Theorem option_contract {Encodable Decoded : Type}
    (innerCodec : Codec Encodable Decoded) :
  encode (codec.option innerCodec) None = Ok []
  /\ (forall v, encode (codec.option innerCodec) (Some v) = encode innerCodec v)
  /\ decode (codec.option innerCodec) [] = Ok None
  /\ (forall buffer, buffer <> [] ->
        (forall v, decode innerCodec buffer = Ok v ->
                   decode (codec.option innerCodec) buffer = Ok (Some v))
        /\ (forall e, decode innerCodec buffer = Throw e ->
                      decode (codec.option innerCodec) buffer = Throw e)).
Proof.
  repeat split; try reflexivity.
  - intros v Hv. destruct buffer as [|b rest]; [contradiction|].
    cbn. unfold bytesFrom. now rewrite Hv.
  - intros e He. destruct buffer as [|b rest]; [contradiction|].
    cbn. unfold bytesFrom. now rewrite He.
Qed.

Lemma option_contract_witness :
  decode Part000.Int8Opt [x05] = Ok (Some 5)
  /\ decode Part000.Int8Opt [x05; x06]
     = Throw (Error "int1: invalid buffer size, expected 1, but got 2").
Proof.
  split.
  - apply (proj1 (proj2 (proj2 (proj2 (option_contract Part000.Int8)))
                   [x05] ltac:(discriminate)) 5).
    vm_compute. reflexivity.
  - apply (proj2 (proj2 (proj2 (proj2 (option_contract Part000.Int8)))
                   [x05; x06] ltac:(discriminate))).
    vm_compute. reflexivity.
Defined.

(** ** The vector combinator: what both layouts share *)

Section VectorFacts.
Context {Encodable Decoded : Type}.
Variable itemCodec : Codec Encodable Decoded.

(** Items that all encode are encoded in order. *)
Lemma encodeItems_ok (items : list Encodable) (encoded : list Bytes) :
  Forall2 (fun item e => encode itemCodec item = Ok e) items encoded ->
  forall i, codec.encodeItems itemCodec i items = Ok encoded.
Proof.
  induction 1 as [|item e items encoded He _ IH]; intros i.
  - reflexivity.
  - cbn [codec.encodeItems]. rewrite He, IH. reflexivity.
Qed.

Lemma concat_length_fixed (L : nat) (encoded : list Bytes) :
  Forall (fun e => length e = L) encoded ->
  length (concat encoded) = (length encoded * L)%nat.
Proof.
  induction 1 as [|e encoded He _ IH]; [reflexivity|].
  cbn [concat length]. rewrite length_app, He, IH. lia.
Qed.

Lemma uint32To_length (n : Z) : length (codec.uint32To n) = 4%nat.
Proof. apply Z_to_le_length. Qed.

End VectorFacts.

(** ** The vector combinator over items of a static length *)

(** C5. Over an inner codec of static length [L], a sequence of [N]
    items that encode to [L] octets each is encoded as the 4-octet
    little-endian count [N] followed by the item encodings, [4 + N*L]
    octets in all.  With the [Int8] of signed.ts, [[1,2,3]] encodes to
    [[0x03,0x00,0x00,0x00,0x01,0x02,0x03]], which decodes to [[1,2,3]],
    and a buffer whose count says 3 before only 2 octets is refused with
    a [DecodeError]. *)
Theorem vector_fixed_layout :
  (forall (Encodable Decoded : Type) (itemCodec : Codec Encodable Decoded)
          (L : nat) (items : list Encodable) (encoded : list Bytes),
     byteLength itemCodec = Some L ->
     Forall2 (fun item e => encode itemCodec item = Ok e /\ length e = L)
             items encoded ->
     exists out,
       encode (codec.vector itemCodec) items = Ok out
       /\ out = codec.uint32To (Z.of_nat (length items)) ++ concat encoded
       /\ length out = (4 + length items * L)%nat)
  /\ encode Signed.Int8Vec [1; 2; 3] = Ok [x03; x00; x00; x00; x01; x02; x03]
  /\ decode Signed.Int8Vec [x03; x00; x00; x00; x01; x02; x03] = Ok [1; 2; 3]
  /\ decode Signed.Int8Vec [x03; x00; x00; x00; x01; x02]
     = Throw (DecodeError 7 6).
Proof.
  split; [|repeat split; vm_compute; reflexivity].
  intros Encodable Decoded itemCodec L items encoded HL Hall.
  assert (Henc : Forall2 (fun item e => encode itemCodec item = Ok e)
                         items encoded).
  { eapply Forall2_impl; [|exact Hall]. now intros item e [He _]. }
  assert (Hlen : Forall (fun e => length e = L) encoded).
  { clear Henc. induction Hall as [|item e items encoded [_ He] _ IH];
      constructor; assumption. }
  exists (codec.uint32To (Z.of_nat (length items)) ++ concat encoded).
  split; [|split; [reflexivity|]].
  - unfold codec.vector. rewrite HL. cbn.
    rewrite (encodeItems_ok itemCodec items encoded Henc). reflexivity.
  - rewrite length_app, uint32To_length, (concat_length_fixed L _ Hlen).
    now rewrite (Forall2_length Hall).
Qed.

Lemma vector_fixed_layout_witness :
  exists out,
    encode (codec.vector Signed.Int16BE) [1; -2] = Ok out
    /\ out = codec.uint32To (Z.of_nat (length [1; -2]))
             ++ concat [[x00; x01]; [xff; xfe]]
    /\ length out = (4 + length [1; -2]%Z * 2)%nat.
Proof.
  apply (proj1 vector_fixed_layout NumLike Z Signed.Int16BE 2%nat
           [1; -2] [[x00; x01]; [xff; xfe]]).
  - reflexivity.
  - repeat constructor.
Defined.

(** With the [Int8] of part_000, which declares no static length, the
    same call takes the variable-item layout. *)
Lemma Part000_Int8Vec_layout :
  encode Part000.Int8Vec [1; 2; 3]
  = Ok [x17; x00; x00; x00; x14; x00; x00; x00; x15; x00; x00; x00;
        x16; x00; x00; x00; x17; x00; x00; x00; x01; x02; x03]
  /\ decode Part000.Int8Vec [x03; x00; x00; x00; x01; x02; x03]
     = Throw (DecodeError 3 7).
Proof.
  split; vm_compute; reflexivity.
Qed.

(** ** The vector combinator over items of no static length *)

Section DynFacts.
Context {Encodable Decoded : Type}.
Variable itemCodec : Codec Encodable Decoded.

Lemma offsetsFrom_length (start : Z) (encoded : list Bytes) :
  length (codec.offsetsFrom start encoded) = S (length encoded).
Proof.
  revert start. induction encoded as [|e rest IH]; intros start.
  - reflexivity.
  - cbn [codec.offsetsFrom length]. now rewrite IH.
Qed.

Lemma offsetsFrom_head (start : Z) (encoded : list Bytes) :
  nth 0 (codec.offsetsFrom start encoded) 0 = start.
Proof. destruct encoded; reflexivity. Qed.

Lemma offsetsFrom_last (start : Z) (encoded : list Bytes) :
  last (codec.offsetsFrom start encoded) 0
  = start + Z.of_nat (length (concat encoded)).
Proof.
  revert start. induction encoded as [|e rest IH]; intros start.
  - simpl. lia.
  - cbn [codec.offsetsFrom concat].
    destruct (codec.offsetsFrom (start + Z.of_nat (length e)) rest)
      as [|o os] eqn:E.
    + pose proof (offsetsFrom_length (start + Z.of_nat (length e)) rest) as Hl.
      rewrite E in Hl. discriminate Hl.
    + change (last (start :: o :: os) 0) with (last (o :: os) 0).
      rewrite <- E, IH, length_app. lia.
Qed.

(** Consecutive offsets are apart by the length of the item between
    them: the encodings lie back to back. *)
Lemma offsetsFrom_step (encoded : list Bytes) :
  forall (start : Z) (i : nat),
    (i < length encoded)%nat ->
    nth (S i) (codec.offsetsFrom start encoded) 0
    = nth i (codec.offsetsFrom start encoded) 0
      + Z.of_nat (length (nth i encoded [])).
Proof.
  induction encoded as [|e rest IH]; intros start i Hi.
  - simpl in Hi. lia.
  - destruct i as [|i].
    + cbn [codec.offsetsFrom nth]. now rewrite offsetsFrom_head.
    + cbn [codec.offsetsFrom]. cbn [nth].
      apply IH. simpl in Hi. lia.
Qed.

Lemma offsets_bytes_length (offsets : list Z) :
  length (flat_map codec.uint32To offsets) = (4 * length offsets)%nat.
Proof.
  induction offsets as [|o os IH]; [reflexivity|].
  cbn [flat_map length]. rewrite length_app, uint32To_length, IH. lia.
Qed.

Lemma nonDecreasing_head_le_last (offsets : list Z) :
  codec.nonDecreasing offsets = true -> nth 0 offsets 0 <= last offsets 0.
Proof.
  induction offsets as [|a rest IH]; intros Hnd.
  - simpl. lia.
  - destruct rest as [|b rest'].
    + simpl. lia.
    + cbn [codec.nonDecreasing] in Hnd. apply andb_prop in Hnd.
      destruct Hnd as [Hab Hrest]. apply Z.leb_le in Hab.
      specialize (IH Hrest).
      change (last (a :: b :: rest') 0) with (last (b :: rest') 0).
      cbn [nth] in *. lia.
Qed.

Lemma offsetTable_head (buffer : Bytes) (count : nat) :
  nth 0 (offsetTable buffer count) 0
  = codec.uint32From (codec.slice buffer 4 8).
Proof. reflexivity. Qed.

Lemma decodeRanges_cons (buffer : Bytes) (k : nat) (a b : Z)
    (rest : list Z) :
  codec.decodeRanges itemCodec buffer k (a :: b :: rest)
  = (let! v := codec.decodeItem itemCodec k
                 (codec.slice buffer (Z.to_nat a) (Z.to_nat b)) in
     let! others := codec.decodeRanges itemCodec buffer (S k) (b :: rest) in
     Ok (v :: others)).
Proof. reflexivity. Qed.

(** Each item comes from the range between its offset and the next
    one; a failure of the inner codec is tagged with the index of the
    item. *)
Lemma decodeRanges_items (buffer : Bytes) (offsets : list Z) :
  forall (k : nat),
    (forall vs, codec.decodeRanges itemCodec buffer k offsets = Ok vs ->
       S (length vs) = Nat.max 1 (length offsets)
       /\ forall i v, nth_error vs i = Some v ->
            decode itemCodec
              (codec.slice buffer (Z.to_nat (nth i offsets 0))
                                  (Z.to_nat (nth (S i) offsets 0)))
            = Ok v)
    /\ (forall e, codec.decodeRanges itemCodec buffer k offsets = Throw e ->
          exists i cause,
            e = AtIndex (k + i) cause
            /\ (S i < length offsets)%nat
            /\ decode itemCodec
                 (codec.slice buffer (Z.to_nat (nth i offsets 0))
                                     (Z.to_nat (nth (S i) offsets 0)))
               = Throw cause).
Proof.
  induction offsets as [|a rest IH]; intros k.
  - split.
    + intros vs H. injection H as <-. split; [reflexivity|].
      intros i v Hv; destruct i; cbn in Hv; discriminate Hv.
    + intros e H. discriminate H.
  - destruct rest as [|b rest'].
    + split.
      * intros vs H. injection H as <-. split; [reflexivity|].
        intros i v Hv; destruct i; cbn in Hv; discriminate Hv.
      * intros e H. discriminate H.
    + destruct (IH (S k)) as [IHok IHerr]. clear IH.
      rewrite decodeRanges_cons. unfold codec.decodeItem.
      destruct (decode itemCodec
                  (codec.slice buffer (Z.to_nat a) (Z.to_nat b)))
        as [v0|e0] eqn:Hd; cbn [bind].
      * destruct (codec.decodeRanges itemCodec buffer (S k) (b :: rest'))
          as [others|e1] eqn:Hr; cbn [bind].
        -- split; [|intros e H; discriminate H].
           intros vs H. injection H as <-.
           destruct (IHok others eq_refl) as [Hlen Hitems]. split.
           ++ cbn [length] in *. lia.
           ++ intros [|i] v Hv.
              ** cbn in Hv. injection Hv as <-. exact Hd.
              ** cbn [nth_error] in Hv. exact (Hitems i v Hv).
        -- split; [intros vs H; discriminate H|].
           intros e H. injection H as <-.
           destruct (IHerr e1 eq_refl) as (i & cause & -> & Hi & Hc).
           exists (S i), cause. split; [f_equal; lia|].
           split; [cbn [length] in *; lia|exact Hc].
      * split; [intros vs H; discriminate H|].
        intros e H. injection H as <-.
        exists 0%nat, e0. split; [f_equal; lia|].
        split; [cbn [length]; lia|exact Hd].
Qed.

Hypothesis no_byteLength : byteLength itemCodec = None.

(** Items that all encode are laid out as total length, offset table
    and encodings. *)
Lemma dyn_encode (items : list Encodable) (encoded : list Bytes) :
  Forall2 (fun item e => encode itemCodec item = Ok e) items encoded ->
  let header := 4 * (Z.of_nat (length items) + 2) in
  let offsets := codec.offsetsFrom header encoded in
  let out := codec.uint32To (header + Z.of_nat (length (concat encoded)))
             ++ flat_map codec.uint32To offsets ++ concat encoded in
  encode (codec.vector itemCodec) items = Ok out
  /\ Z.of_nat (length out) = header + Z.of_nat (length (concat encoded)).
Proof.
  intros Henc header offsets out. split.
  - unfold codec.vector. rewrite no_byteLength. cbn.
    rewrite (encodeItems_ok itemCodec items encoded Henc). reflexivity.
  - subst out. rewrite !length_app, uint32To_length, offsets_bytes_length.
    subst offsets. rewrite offsetsFrom_length.
    rewrite <- (Forall2_length Henc). subst header. lia.
Qed.

(** A buffer that meets the layout is decoded range by range. *)
Lemma dyn_decode_accepts (buffer : Bytes) (offsets : list Z) :
  dynLayout buffer offsets ->
  decode (codec.vector itemCodec) buffer
  = codec.decodeRanges itemCodec buffer 0 offsets.
Proof.
  intros (Htot & count & Hoff & Hfirst & Hnd & Hlast).
  pose proof (nonDecreasing_head_le_last offsets Hnd) as Hle.
  rewrite Hfirst, Hlast in Hle.
  pose proof Hfirst as Hread. rewrite Hoff, offsetTable_head in Hread.
  unfold codec.vector. rewrite no_byteLength.
  unfold codec.dynItemVec, Codec_from, bytesFrom.
  cbn [decode Uint8Array.octets Uint8Array.fresh].
  replace (length buffer <? 4)%nat with false
    by (symmetry; apply Nat.ltb_ge; lia).
  rewrite Htot, Z.eqb_refl. cbn [negb].
  replace (length buffer <? 8)%nat with false
    by (symmetry; apply Nat.ltb_ge; lia).
  rewrite Hread.
  replace (4 * (Z.of_nat count + 2) mod 4) with 0
    by (rewrite Z.mul_comm, Z.mod_mul; lia).
  replace (8 <=? 4 * (Z.of_nat count + 2)) with true
    by (symmetry; apply Z.leb_le; lia).
  replace (4 * (Z.of_nat count + 2) <=? Z.of_nat (length buffer)) with true
    by (symmetry; apply Z.leb_le; lia).
  cbn [Z.eqb andb negb].
  replace (Z.to_nat (4 * (Z.of_nat count + 2) / 4 - 2)) with count
    by (rewrite Z.mul_comm, Z.div_mul; lia).
  fold (offsetTable buffer count). rewrite <- Hoff, Hnd, Hlast, Z.eqb_refl.
  reflexivity.
Qed.

(** A buffer that does not meet it is refused with a [DecodeError]. *)
Lemma dyn_decode_rejects (buffer : Bytes) :
  (forall offsets, ~ dynLayout buffer offsets) ->
  exists expected actual,
    decode (codec.vector itemCodec) buffer
    = Throw (DecodeError expected actual).
Proof.
  intros Hno.
  unfold codec.vector. rewrite no_byteLength.
  unfold codec.dynItemVec, Codec_from, bytesFrom.
  cbn [decode Uint8Array.octets Uint8Array.fresh].
  destruct (length buffer <? 4)%nat eqn:H4; [eauto|].
  destruct (codec.uint32From (codec.slice buffer 0 4)
            =? Z.of_nat (length buffer)) eqn:Htot; cbn [negb]; [|eauto].
  destruct (length buffer <? 8)%nat eqn:H8; [eauto|].
  set (first := codec.uint32From (codec.slice buffer 4 8)).
  destruct ((first mod 4 =? 0) && (8 <=? first)
            && (first <=? Z.of_nat (length buffer))) eqn:Hfst;
    cbn [negb]; [|eauto].
  set (count := Z.to_nat (first / 4 - 2)).
  fold (offsetTable buffer count).
  destruct (codec.nonDecreasing (offsetTable buffer count)) eqn:Hnd;
    cbn [negb]; [|eauto].
  destruct (last (offsetTable buffer count) 0
            =? codec.uint32From (codec.slice buffer 0 4)) eqn:Hlast;
    cbn [negb]; [|eauto].
  exfalso. apply (Hno (offsetTable buffer count)).
  apply Z.eqb_eq in Htot, Hlast.
  apply andb_prop in Hfst. destruct Hfst as [Hfst Hle].
  apply andb_prop in Hfst. destruct Hfst as [Hmod Hge].
  apply Z.eqb_eq in Hmod. apply Z.leb_le in Hge.
  split; [exact Htot|]. exists count.
  split; [reflexivity|]. split; [|split; [exact Hnd|congruence]].
  rewrite offsetTable_head. fold first. subst count.
  pose proof (Z.div_mod first 4 ltac:(lia)) as Hdm.
  rewrite Z2Nat.id by lia. lia.
Qed.

End DynFacts.

(** C4. Over an inner codec of no static length, a sequence of [N] items
    is encoded as a 4-octet little-endian total length, which is the size
    of the whole encoding, then [N + 1] 4-octet little-endian offsets, the
    first one [4 * (N + 2)] and the last one the total length, then the
    item encodings back to back.  Decoding accepts exactly the buffers
    whose total-length field is their length and whose offsets start
    after the header and the table, never go down and end at the total
    length; any other buffer is a [DecodeError]; item [i] is decoded from
    the octets between offset [i] and offset [i + 1], a failure of the
    inner codec being tagged with [i]. *)
Theorem vector_dynamic_layout :
  (forall (Encodable Decoded : Type) (itemCodec : Codec Encodable Decoded)
          (items : list Encodable) (encoded : list Bytes),
     byteLength itemCodec = None ->
     Forall2 (fun item e => encode itemCodec item = Ok e) items encoded ->
     exists out offsets,
       encode (codec.vector itemCodec) items = Ok out
       /\ out = codec.uint32To (Z.of_nat (length out))
                ++ flat_map codec.uint32To offsets ++ concat encoded
       /\ length offsets = S (length items)
       /\ nth 0 offsets 0 = 4 * (Z.of_nat (length items) + 2)
       /\ last offsets 0 = Z.of_nat (length out)
       /\ (forall i, (i < length items)%nat ->
             nth (S i) offsets 0
             = nth i offsets 0 + Z.of_nat (length (nth i encoded []))))
  /\ (forall (Encodable Decoded : Type) (itemCodec : Codec Encodable Decoded)
             (buffer : Bytes),
        byteLength itemCodec = None ->
        (forall offsets, ~ dynLayout buffer offsets) ->
        exists expected actual,
          decode (codec.vector itemCodec) buffer
          = Throw (DecodeError expected actual))
  /\ (forall (Encodable Decoded : Type) (itemCodec : Codec Encodable Decoded)
             (buffer : Bytes) (offsets : list Z),
        byteLength itemCodec = None ->
        dynLayout buffer offsets ->
        (forall vs,
           decode (codec.vector itemCodec) buffer = Ok vs ->
           S (length vs) = length offsets
           /\ forall i v, nth_error vs i = Some v ->
                decode itemCodec
                  (codec.slice buffer (Z.to_nat (nth i offsets 0))
                                      (Z.to_nat (nth (S i) offsets 0)))
                = Ok v)
        /\ (forall e,
              decode (codec.vector itemCodec) buffer = Throw e ->
              exists i cause,
                e = AtIndex i cause
                /\ (S i < length offsets)%nat
                /\ decode itemCodec
                     (codec.slice buffer (Z.to_nat (nth i offsets 0))
                                         (Z.to_nat (nth (S i) offsets 0)))
                   = Throw cause)).
Proof.
  split; [|split].
  - intros Encodable Decoded itemCodec items encoded Hnone Henc.
    destruct (dyn_encode itemCodec Hnone items encoded Henc) as [Hout Hsize].
    cbv zeta in Hout, Hsize.
    eexists. exists (codec.offsetsFrom (4 * (Z.of_nat (length items) + 2)) encoded).
    split; [exact Hout|].
    split; [now rewrite Hsize|].
    split; [rewrite offsetsFrom_length; now rewrite (Forall2_length Henc)|].
    split; [apply offsetsFrom_head|].
    split; [now rewrite offsetsFrom_last, Hsize|].
    intros i Hi. apply offsetsFrom_step.
    now rewrite <- (Forall2_length Henc).
  - intros Encodable Decoded itemCodec buffer Hnone Hno.
    exact (dyn_decode_rejects itemCodec Hnone buffer Hno).
  - intros Encodable Decoded itemCodec buffer offsets Hnone Hlay.
    rewrite (dyn_decode_accepts itemCodec Hnone buffer offsets Hlay).
    destruct (decodeRanges_items itemCodec buffer offsets 0) as [Hok Herr].
    assert (Hpos : (1 <= length offsets)%nat).
    { destruct Hlay as (_ & count & -> & _). unfold offsetTable.
      rewrite length_map, length_seq. lia. }
    split.
    + intros vs Hvs. destruct (Hok vs Hvs) as [Hlen Hitems].
      split; [lia|exact Hitems].
    + intros e He. destruct (Herr e He) as (i & cause & -> & Hi & Hc).
      exists i, cause. repeat split; assumption.
Qed.

Lemma vector_dynamic_layout_witness :
  exists out offsets,
    encode (codec.vector Part000.Int8Opt) [Some 1; None; Some 2] = Ok out
    /\ out = codec.uint32To (Z.of_nat (length out))
             ++ flat_map codec.uint32To offsets ++ concat [[x01]; []; [x02]]
    /\ length offsets = S (length [Some 1; None; Some 2])
    /\ nth 0 offsets 0 = 4 * (Z.of_nat (length [Some 1; None; Some 2]) + 2)
    /\ last offsets 0 = Z.of_nat (length out)
    /\ (forall i, (i < length [Some 1; None; Some 2])%nat ->
          nth (S i) offsets 0
          = nth i offsets 0
            + Z.of_nat (length (nth i [[x01]; []; [x02]] []))).
Proof.
  apply (proj1 vector_dynamic_layout _ _ Part000.Int8Opt
           [Some 1; None; Some 2] [[x01]; []; [x02]]).
  - reflexivity.
  - repeat constructor.
Defined.

(** The offset integrity example of the spec: the sequence
    [[present(1), absent, present(2)]] is encoded in 22 octets, with 22
    as total length and as last offset, and is decoded back; once an
    offset is set below the one before it, decoding fails. *)
Lemma vector_dynamic_example :
  encode (codec.vector Part000.Int8Opt) [Some 1; None; Some 2]
  = Ok [x16; x00; x00; x00; x14; x00; x00; x00; x15; x00; x00; x00;
        x15; x00; x00; x00; x16; x00; x00; x00; x01; x02]
  /\ decode (codec.vector Part000.Int8Opt)
       [x16; x00; x00; x00; x14; x00; x00; x00; x15; x00; x00; x00;
        x15; x00; x00; x00; x16; x00; x00; x00; x01; x02]
     = Ok [Some 1; None; Some 2]
  /\ decode (codec.vector Part000.Int8Opt)
       [x16; x00; x00; x00; x14; x00; x00; x00; x15; x00; x00; x00;
        x14; x00; x00; x00; x16; x00; x00; x00; x01; x02]
     = Throw (DecodeError 20 22)
  /\ encode (codec.vector Part000.Int8Opt) []
     = Ok [x08; x00; x00; x00; x08; x00; x00; x00].
Proof.
  repeat split; vm_compute; reflexivity.
Qed.

(** * Further properties of the primitive codecs *)

(** ** More on octets and two's complement *)

Lemma le_to_Z_range (bs : Bytes) :
  0 <= le_to_Z bs < 2 ^ (8 * Z.of_nat (length bs)).
Proof.
  induction bs as [|b bs IH].
  - simpl. lia.
  - cbn [le_to_Z length]. pose proof (Z_of_byte_range b).
    replace (8 * Z.of_nat (S (length bs)))
      with (8 + 8 * Z.of_nat (length bs)) by lia.
    rewrite Z.pow_add_r by lia. change (2 ^ 8) with 256. nia.
Qed.

Lemma Z_to_le_to_Z (bs : Bytes) : Z_to_le (length bs) (le_to_Z bs) = bs.
Proof.
  induction bs as [|b bs IH]; [reflexivity|].
  cbn [length Z_to_le le_to_Z]. pose proof (Z_of_byte_range b) as Hr.
  f_equal.
  - unfold byte_of_Z.
    replace ((Z_of_byte b + 256 * le_to_Z bs) mod 256) with (Z_of_byte b).
    + unfold Z_of_byte. now rewrite N2Z.id, Byte.of_to_N.
    + replace (256 * le_to_Z bs) with (le_to_Z bs * 256) by lia.
      rewrite Z.mod_add by lia. now rewrite Z.mod_small by lia.
  - replace ((Z_of_byte b + 256 * le_to_Z bs) / 256) with (le_to_Z bs);
      [exact IH|].
    replace (256 * le_to_Z bs) with (le_to_Z bs * 256) by lia.
    rewrite Z.div_add by lia.
    rewrite (Z.div_small (Z_of_byte b)) by lia. lia.
Qed.

(** The octets written depend on the value modulo [2^(8n)] only. *)
Lemma Z_to_le_congruent (n : nat) (a b : Z) :
  a mod 2 ^ (8 * Z.of_nat n) = b mod 2 ^ (8 * Z.of_nat n) ->
  Z_to_le n a = Z_to_le n b.
Proof.
  intros Hab.
  rewrite <- (Z_to_le_to_Z (Z_to_le n a)), <- (Z_to_le_to_Z (Z_to_le n b)).
  rewrite !Z_to_le_length, !le_to_Z_to_le, Hab. reflexivity.
Qed.

(** The [k] low-order octets are the first [k] of any longer numeral. *)
Lemma firstn_Z_to_le (k n : nat) (z : Z) :
  (k <= n)%nat -> firstn k (Z_to_le n z) = Z_to_le k z.
Proof.
  revert n z. induction k as [|k IH]; intros n z Hkn; [reflexivity|].
  destruct n as [|n]; [lia|].
  cbn [Z_to_le firstn]. f_equal. apply IH. lia.
Qed.

Lemma toSigned_range (w u : Z) :
  0 < w -> 0 <= u < 2 ^ w -> in_range w (toSigned w u).
Proof.
  intros Hw Hu. unfold in_range, toSigned.
  assert (Hp : 2 ^ w = 2 * 2 ^ (w - 1)).
  { replace w with (1 + (w - 1)) at 1 by lia.
    rewrite Z.pow_add_r by lia. reflexivity. }
  destruct (u <? 2 ^ (w - 1)) eqn:E.
  - apply Z.ltb_lt in E. lia.
  - apply Z.ltb_ge in E. lia.
Qed.

Lemma toSigned_congruent (w u : Z) :
  0 < w -> toSigned w u mod 2 ^ w = u mod 2 ^ w.
Proof.
  intros Hw. unfold toSigned.
  assert (0 < 2 ^ w) by (apply Z.pow_pos_nonneg; lia).
  destruct (u <? 2 ^ (w - 1)); [reflexivity|].
  replace (u - 2 ^ w) with (u + (-1) * 2 ^ w) by lia.
  now rewrite Z.mod_add by lia.
Qed.

Lemma order_injective (littleEndian : bool) (a b : Bytes) :
  DataView.order littleEndian a = DataView.order littleEndian b -> a = b.
Proof.
  intros H. rewrite <- (order_involutive littleEndian a), H.
  apply order_involutive.
Qed.

(** ** What a successful decode says *)

Lemma in_Part000 (c : Codec NumLike Z) (w : Z) (le : bool) :
  In (c, w, le) Part000_primitives -> In (c, w, le) primitives.
Proof. intros H. unfold primitives. apply in_or_app. now left. Qed.

Lemma in_Signed (c : Codec NumLike Z) (w : Z) (le : bool) :
  In (c, w, le) Signed_primitives -> In (c, w, le) primitives.
Proof. intros H. unfold primitives. apply in_or_app. now right. Qed.

(** A codec that decodes a buffer has found it of the static length, and
    the value is the two's complement reading of the first octets of the
    [ArrayBuffer] of the buffer. *)
Lemma decode_Ok_value (c : Codec NumLike Z) (w : Z) (le : bool)
    (b : BytesLike) (v : Z) :
  In (c, w, le) primitives ->
  decode c b = Ok v ->
  Uint8Array.byteLength b = staticLength w
  /\ v = toSigned w
           (le_to_Z (DataView.order le
                       (firstn (staticLength w) (Uint8Array.buffer b)))).
Proof.
  intros Hin Hd.
  destruct (Nat.eq_dec (Uint8Array.byteLength b) (staticLength w)) as [E|E].
  - rewrite (decode_match c w le b Hin E) in Hd. injection Hd as <-.
    split; [exact E|reflexivity].
  - rewrite (decode_mismatch c w le b Hin E) in Hd. discriminate Hd.
Qed.


(** The value of octets read as two's complement lies in the signed
    range. *)
Lemma read_in_range (w : Z) (le : bool) (bs : Bytes) :
  0 < w -> 8 * Z.of_nat (length bs) = w ->
  in_range w (toSigned w (le_to_Z (DataView.order le bs))).
Proof.
  intros Hpos Hw. apply toSigned_range; [exact Hpos|].
  pose proof (le_to_Z_range (DataView.order le bs)) as Hr.
  rewrite order_length, Hw in Hr. exact Hr.
Qed.



(** Encoding a decoded value gives back the octets it was read from. *)
Lemma encode_decoded (c : Codec NumLike Z) (w : Z) (le : bool)
    (b : BytesLike) (v : Z) :
  In (c, w, le) primitives ->
  decode c b = Ok v ->
  encode c v = Ok (firstn (staticLength w) (Uint8Array.buffer b)).
Proof.
  intros Hin Hd.
  destruct (width_staticLength w (width_cases _ _ _ Hin)) as [Hw Hpos].
  destruct (decode_Ok_value c w le b v Hin Hd) as [Hlen ->].
  set (head := firstn (staticLength w) (Uint8Array.buffer b)).
  assert (Hhead : length head = staticLength w).
  { subst head. rewrite length_firstn.
    pose proof (buffer_length b). lia. }
  rewrite (encode_shape _ _ _ _ Hin).
  rewrite (in_range_inputValue c w le _ Hin)
    by (apply read_in_range; [exact Hpos|now rewrite Hhead]).
  f_equal.
  rewrite (Z_to_le_congruent (staticLength w) _
             (le_to_Z (DataView.order le head)))
    by (rewrite Hw; now apply toSigned_congruent).
  rewrite <- Hhead at 1. rewrite <- (order_length le head).
  rewrite Z_to_le_to_Z. apply order_involutive.
Qed.

(** An array that starts its buffer starts it with its own octets. *)
Lemma firstn_buffer_at_start (b : Uint8Array.t) :
  Uint8Array.before b = [] ->
  firstn (Uint8Array.byteLength b) (Uint8Array.buffer b)
  = Uint8Array.octets b.
Proof.
  intros Hb. unfold Uint8Array.buffer, Uint8Array.byteLength. rewrite Hb.
  cbn [app]. rewrite firstn_app, Nat.sub_diag, firstn_all.
  cbn [firstn]. apply app_nil_r.
Qed.

(** X2. The primitive codecs are canonical on a buffer that starts its
    [ArrayBuffer]: if it decodes to [v], the encoding of [v] is the
    buffer, octet for octet, so two such buffers that decode to the same
    value hold the same octets.  Whatever the buffer, the encoding of the
    decoded value is the first [byteLength] octets of its
    [ArrayBuffer]. *)
Theorem decode_canonical (c : Codec NumLike Z) (w : Z) (le : bool)
    (b : BytesLike) (v : Z) :
  In (c, w, le) primitives ->
  decode c b = Ok v ->
  encode c v = Ok (firstn (staticLength w) (Uint8Array.buffer b))
  /\ (Uint8Array.before b = [] ->
      encode c v = Ok (Uint8Array.octets b)
      /\ forall other : BytesLike,
           Uint8Array.before other = [] ->
           decode c other = Ok v ->
           Uint8Array.octets other = Uint8Array.octets b).
Proof.
  intros Hin Hd.
  assert (Hstart : forall x : BytesLike,
            Uint8Array.before x = [] -> decode c x = Ok v ->
            encode c v = Ok (Uint8Array.octets x)).
  { intros x Hx Hdx. rewrite (encode_decoded c w le x v Hin Hdx).
    rewrite <- (proj1 (decode_Ok_value c w le x v Hin Hdx)).
    now rewrite firstn_buffer_at_start. }
  split; [exact (encode_decoded c w le b v Hin Hd)|].
  intros Hb. split; [exact (Hstart b Hb Hd)|].
  intros other Ho Hdo.
  pose proof (Hstart b Hb Hd) as H1. pose proof (Hstart other Ho Hdo) as H2.
  rewrite H1 in H2. now injection H2.
Qed.

Lemma decode_canonical_witness :
  encode Part000.Int32BE (-2)
  = Ok (firstn (staticLength 32)
          (Uint8Array.buffer
             (Uint8Array.make [] [xff; xff; xff; xfe] [x07; x08])))
  /\ (Uint8Array.before (Uint8Array.make [] [xff; xff; xff; xfe] [x07; x08])
      = [] ->
      encode Part000.Int32BE (-2)
      = Ok (Uint8Array.octets
              (Uint8Array.make [] [xff; xff; xff; xfe] [x07; x08]))
      /\ forall other : BytesLike,
           Uint8Array.before other = [] ->
           decode Part000.Int32BE other = Ok (-2) ->
           Uint8Array.octets other
           = Uint8Array.octets
               (Uint8Array.make [] [xff; xff; xff; xfe] [x07; x08])).
Proof.
  apply (decode_canonical Part000.Int32BE 32 false).
  - apply in_Part000. simpl. tauto.
  - vm_compute. reflexivity.
Defined.

(** X13. A primitive codec reads the [ArrayBuffer] of the buffer from its
    first octet, not the buffer from its own offset: a buffer of the
    static length decodes to what the first [byteLength] octets of its
    [ArrayBuffer] decode to, so two buffers of that length on one
    [ArrayBuffer] decode alike wherever they start. *)
Theorem decode_reads_buffer_start (c : Codec NumLike Z) (w : Z) (le : bool)
    (b : BytesLike) :
  In (c, w, le) primitives ->
  Uint8Array.byteLength b = staticLength w ->
  decode c b = decode c (firstn (staticLength w) (Uint8Array.buffer b))
  /\ forall other : BytesLike,
       Uint8Array.byteLength other = staticLength w ->
       Uint8Array.buffer other = Uint8Array.buffer b ->
       decode c other = decode c b.
Proof.
  intros Hin Hlen. split.
  - rewrite (decode_match c w le b Hin Hlen).
    rewrite (decode_exact c w le _ Hin); [reflexivity|].
    rewrite length_firstn. pose proof (buffer_length b). lia.
  - intros other Ho Hbuf.
    now rewrite (decode_match c w le other Hin Ho),
                (decode_match c w le b Hin Hlen), Hbuf.
Qed.

Lemma decode_reads_buffer_start_witness :
  decode Signed.Int8 (Uint8Array.make [x09] [x01] [])
  = decode Signed.Int8
      (firstn (staticLength 8)
         (Uint8Array.buffer (Uint8Array.make [x09] [x01] [])))
  /\ forall other : BytesLike,
       Uint8Array.byteLength other = staticLength 8 ->
       Uint8Array.buffer other
       = Uint8Array.buffer (Uint8Array.make [x09] [x01] []) ->
       decode Signed.Int8 other
       = decode Signed.Int8 (Uint8Array.make [x09] [x01] []).
Proof.
  apply (decode_reads_buffer_start Signed.Int8 8 true).
  - apply in_Signed. simpl. tauto.
  - reflexivity.
Defined.

(** ** The two revisions against each other *)




(** ** Byte order *)

Lemma factories_members (f : bool -> Codec NumLike Z) (w : Z) (le : bool) :
  In (f, w) factories -> In (f le, w, le) primitives.
Proof.
  unfold factories, primitives, Part000_primitives, Signed_primitives.
  intros H.
  each_primitive H ltac:(destruct le; simpl; auto 20).
Qed.

(** X7. The two codecs that [int16Number], [int32Number] and [int64]
    build mirror each other: the big-endian encoding of an input is the
    little-endian one reversed, and an array of the static length that
    spans its own buffer, read big-endian, is its reverse read
    little-endian. *)
Theorem byte_orders_mirror (f : bool -> Codec NumLike Z) (w : Z) :
  In (f, w) factories ->
  (forall n bs, encode (f true) n = Ok bs -> encode (f false) n = Ok (rev bs))
  /\ (forall buffer : Bytes,
        length buffer = staticLength w ->
        decode (f false) (Uint8Array.fresh (rev buffer))
        = decode (f true) (Uint8Array.fresh buffer)).
Proof.
  intros Hin.
  pose proof (factories_members f w true Hin) as Hle.
  pose proof (factories_members f w false Hin) as Hbe.
  split.
  - intros n bs Hbs. rewrite (encode_shape _ _ _ n Hle) in Hbs.
    injection Hbs as <-. exact (encode_shape _ _ _ n Hbe).
  - intros buffer Hlen.
    rewrite (decode_exact _ _ _ _ Hbe) by (now rewrite length_rev).
    rewrite (decode_exact _ _ _ _ Hle) by exact Hlen.
    cbn [DataView.order]. now rewrite rev_involutive.
Qed.

Lemma byte_orders_mirror_witness :
  (forall n bs,
     encode (Signed.int64 true) n = Ok bs ->
     encode (Signed.int64 false) n = Ok (rev bs))
  /\ (forall buffer : Bytes,
        length buffer = staticLength 64 ->
        decode (Signed.int64 false) (Uint8Array.fresh (rev buffer))
        = decode (Signed.int64 true) (Uint8Array.fresh buffer)).
Proof.
  apply (byte_orders_mirror Signed.int64 64).
  simpl. tauto.
Defined.

(** ** Which inputs share an encoding *)

(** X8. Two inputs that a primitive codec of width [w] takes as they are
    (any integers at width 64, integers up to [2^53] in magnitude below)
    get the same encoding exactly when they are congruent modulo
    [2^w]. *)
Theorem encode_equal_iff (c : Codec NumLike Z) (w : Z) (le : bool) (n m : Z) :
  In (c, w, le) primitives ->
  exactInput w n ->
  exactInput w m ->
  (encode c n = encode c m <-> n mod 2 ^ w = m mod 2 ^ w).
Proof.
  intros Hin Hn Hm.
  destruct (width_staticLength w (width_cases _ _ _ Hin)) as [Hw Hpos].
  rewrite (encode_shape _ _ _ n Hin), (encode_shape _ _ _ m Hin).
  rewrite (inputValue_exact w n Hn), (inputValue_exact w m Hm). split.
  - intros H. injection H as H. apply order_injective in H.
    apply (f_equal le_to_Z) in H. rewrite !le_to_Z_to_le, Hw in H. exact H.
  - intros H. f_equal. f_equal. apply Z_to_le_congruent. now rewrite Hw.
Qed.

Lemma encode_equal_iff_witness :
  encode Part000.Int8 (-1) = encode Part000.Int8 255
  <-> (-1) mod 2 ^ 8 = 255 mod 2 ^ 8.
Proof.
  apply (encode_equal_iff Part000.Int8 8 true (-1) 255).
  - apply in_Part000. simpl. tauto.
  - right. simpl. lia.
  - right. simpl. lia.
Defined.

(** ** Widths against each other *)

Lemma roundtrip_in_range (c : Codec NumLike Z) (w : Z) (le : bool) (n : Z) :
  In (c, w, le) primitives ->
  in_range w n ->
  (let! bs := encode c n in decode c bs) = Ok n.
Proof.
  intros Hin Hn. rewrite (decode_encode_wrap _ _ _ n Hin).
  rewrite (in_range_inputValue c w le n Hin Hn).
  destruct (width_staticLength w (width_cases _ _ _ Hin)) as [_ Hw].
  now rewrite wrap_small.
Qed.

Lemma littleEndian_members (c : Codec NumLike Z) (w : Z) :
  In (c, w) (Part000_littleEndian ++ Signed_littleEndian) ->
  In (c, w, true) primitives.
Proof.
  unfold Part000_littleEndian, Signed_littleEndian, primitives,
    Part000_primitives, Signed_primitives.
  intros H. each_primitive H ltac:(simpl; auto 20).
Qed.

(** X9. Among the little-endian codecs, for an input that the narrower
    codec takes as it is (up to [2^53] in magnitude), the narrower one
    writes the first octets of what a wider one writes; so an input of
    the narrow signed range is read back by the narrow codec from the
    head of the wide encoding. *)
Theorem littleEndian_narrowing (narrow wide : Codec NumLike Z)
    (w1 w2 : Z) (n : Z) (bs : Bytes) :
  In (narrow, w1) (Part000_littleEndian ++ Signed_littleEndian) ->
  In (wide, w2) (Part000_littleEndian ++ Signed_littleEndian) ->
  w1 <= w2 ->
  exactInput w1 n ->
  encode wide n = Ok bs ->
  encode narrow n = Ok (firstn (staticLength w1) bs)
  /\ (in_range w1 n -> decode narrow (firstn (staticLength w1) bs) = Ok n).
Proof.
  intros H1 H2 Hle Hexact Hbs.
  apply littleEndian_members in H1, H2.
  pose proof (width_cases _ _ _ H1) as Hc1.
  pose proof (width_cases _ _ _ H2) as Hc2.
  assert (Hlen : (staticLength w1 <= staticLength w2)%nat).
  { destruct (width_staticLength w1 Hc1) as [E1 _].
    destruct (width_staticLength w2 Hc2) as [E2 _]. lia. }
  assert (Hexact2 : exactInput w2 n).
  { destruct Hexact as [->|Hsmall]; [left; lia|now right]. }
  rewrite (encode_shape _ _ _ n H2), (inputValue_exact w2 n Hexact2) in Hbs.
  injection Hbs as <-.
  cbn [DataView.order]. rewrite (firstn_Z_to_le _ _ n Hlen).
  assert (He : encode narrow n = Ok (Z_to_le (staticLength w1) n)).
  { rewrite (encode_shape _ _ _ n H1), (inputValue_exact w1 n Hexact).
    reflexivity. }
  split; [exact He|].
  intros Hn. pose proof (roundtrip_in_range narrow w1 true n H1 Hn) as Hr.
  rewrite He in Hr. exact Hr.
Qed.

Lemma littleEndian_narrowing_witness :
  encode Signed.Int16LE (-2)
  = Ok (firstn (staticLength 16) [xfe; xff; xff; xff; xff; xff; xff; xff])
  /\ (in_range 16 (-2) ->
      decode Signed.Int16LE
        (firstn (staticLength 16) [xfe; xff; xff; xff; xff; xff; xff; xff])
      = Ok (-2)).
Proof.
  apply (littleEndian_narrowing Signed.Int16LE Part000.Int64LE 16 64 (-2)).
  - simpl. tauto.
  - simpl. tauto.
  - lia.
  - right. simpl. lia.
  - vm_compute. reflexivity.
Defined.

(** ** The derived forms: [option] and [vector] of a primitive codec *)

(** No primitive codec ever writes the empty buffer. *)
Lemma encode_nonempty (c : Codec NumLike Z) (w : Z) (le : bool) (n : Z) :
  In (c, w, le) primitives ->
  exists b rest, encode c n = Ok (b :: rest).
Proof.
  intros Hin. pose proof (encode_shape _ _ _ n Hin) as He.
  destruct (DataView.order le (Z_to_le (staticLength w) (inputValue w n)))
    as [|b rest] eqn:E.
  - apply (f_equal (@length byte)) in E.
    rewrite order_length, Z_to_le_length in E.
    destruct (width_staticLength w (width_cases _ _ _ Hin)) as [Hw Hpos].
    simpl in E. lia.
  - now exists b, rest.
Qed.

(** X10. The optional form of a primitive codec ([Int8Opt], [Int16Opt],
    ...) gives back what it was given: absent comes back absent, and a
    present value of the signed range comes back present and unchanged,
    never absent, since a primitive encoding is never empty. *)
Theorem Opt_roundtrip (c : Codec NumLike Z) (w : Z) (le : bool)
    (value : option Z) :
  In (c, w, le) primitives ->
  (forall n, value = Some n -> in_range w n) ->
  (let! bs := encode (codec.option c) value in decode (codec.option c) bs)
  = Ok value.
Proof.
  intros Hin Hrange. destruct value as [n|]; [|reflexivity].
  pose proof (roundtrip_in_range c w le n Hin (Hrange n eq_refl)) as Hr.
  destruct (encode_nonempty c w le n Hin) as (b & rest & He).
  change (encode (codec.option c) (Some n)) with (encode c n).
  rewrite He in Hr |- *. cbn [bind] in Hr |- *.
  change (decode (codec.option c) (b :: rest))
    with (let! v := decode c (b :: rest) in Ok (Some v)).
  now rewrite Hr.
Qed.

Lemma Opt_roundtrip_witness :
  (let! bs := encode Signed.Int32Opt (Some (-7)) in
   decode Signed.Int32Opt bs)
  = Ok (Some (-7)).
Proof.
  apply (Opt_roundtrip Signed.Int32 32 true (Some (-7))).
  - apply in_Signed. simpl. tauto.
  - intros n H. injection H as <-. unfold in_range. simpl. lia.
Defined.

Section PrimitiveVector.
Variable c : Codec NumLike Z.
Variable w : Z.
Variable le : bool.
Hypothesis primitive : In (c, w, le) primitives.

Lemma encodeItems_primitive (items : list Z) :
  Forall (in_range w) items ->
  forall i,
    codec.encodeItems c i items = Ok (map (itemBytes w le) items).
Proof.
  induction 1 as [|n items Hn _ IH]; intros i; [reflexivity|].
  cbn [codec.encodeItems map].
  rewrite (encode_shape _ _ _ n primitive), IH.
  rewrite (in_range_inputValue c w le n primitive Hn). reflexivity.
Qed.

Lemma items_length (items : list Z) :
  length (concat (map (itemBytes w le) items))
  = (length items * staticLength w)%nat.
Proof.
  induction items as [|n items IH]; [reflexivity|].
  cbn [map concat length]. rewrite length_app, IH.
  unfold itemBytes. rewrite order_length, Z_to_le_length. lia.
Qed.

Lemma decodeChunks_primitive (items : list Z) :
  Forall (in_range w) items ->
  forall i,
    codec.decodeChunks c (staticLength w) (length items) i
      (concat (map (itemBytes w le) items))
    = Ok items.
Proof.
  induction 1 as [|n items Hn _ IH]; intros i; [reflexivity|].
  assert (Hlen : length (itemBytes w le n) = staticLength w)
    by (unfold itemBytes; now rewrite order_length, Z_to_le_length).
  cbn [length map concat codec.decodeChunks].
  rewrite firstn_app, skipn_app, Hlen, Nat.sub_diag.
  rewrite firstn_all2, skipn_all2 by lia.
  cbn [firstn skipn app]. rewrite app_nil_r.
  pose proof (roundtrip_in_range c w le n primitive Hn) as Hr.
  rewrite (encode_shape _ _ _ n primitive) in Hr. cbn [bind] in Hr.
  rewrite (in_range_inputValue c w le n primitive Hn) in Hr.
  unfold codec.decodeItem. fold (itemBytes w le n) in Hr. rewrite Hr.
  cbn [bind]. rewrite IH. reflexivity.
Qed.

End PrimitiveVector.

(** X11. The sequence form of a primitive codec that declares its static
    length ([Int16Vec], [Int32Vec], [Int64Vec], and [Int8Vec] in
    signed.ts) gives back every sequence of fewer than [2^32] values of
    the signed range, in order. *)
Theorem Vec_roundtrip (c : Codec NumLike Z) (w : Z) (le : bool)
    (items : list Z) :
  In (c, w, le) primitives ->
  byteLength c = Some (staticLength w) ->
  Forall (in_range w) items ->
  Z.of_nat (length items) < 2 ^ 32 ->
  (let! bs := encode (codec.vector c) items in decode (codec.vector c) bs)
  = Ok items.
Proof.
  intros Hin HL Hrange Hcount.
  unfold codec.vector. rewrite HL.
  unfold codec.fixedItemVec, Codec_from, bytesFrom.
  cbn [encode decode].
  rewrite (encodeItems_primitive c w le Hin items Hrange). cbn [bind].
  cbv zeta. cbn [Uint8Array.octets Uint8Array.fresh].
  unfold NumLike in *.
  set (header := codec.uint32To _).
  set (body := concat (map (itemBytes w le) items)).
  assert (Hh : length header = 4%nat) by apply uint32To_length.
  rewrite length_app, Hh.
  replace (4 + length body <? 4)%nat with false
    by (symmetry; apply Nat.ltb_ge; lia).
  assert (Hslice : codec.slice (header ++ body) 0 4 = header).
  { unfold codec.slice. cbn [skipn Nat.sub].
    rewrite firstn_app, Hh, firstn_all2 by lia.
    cbn [Nat.sub firstn]. apply app_nil_r. }
  assert (Hskip : skipn 4 (header ++ body) = body).
  { rewrite skipn_app, Hh, skipn_all2 by lia. reflexivity. }
  rewrite Hslice, Hskip. subst header.
  unfold codec.uint32From, codec.uint32To. rewrite le_to_Z_to_le.
  change (8 * Z.of_nat 4) with 32. rewrite Z.mod_small by lia.
  subst body. rewrite (items_length w le).
  replace (Z.of_nat (length items * staticLength w)
           =? Z.of_nat (length items) * Z.of_nat (staticLength w))
    with true by (symmetry; apply Z.eqb_eq; lia).
  cbn [negb]. rewrite Nat2Z.id.
  exact (decodeChunks_primitive c w le Hin items Hrange 0%nat).
Qed.

Lemma Vec_roundtrip_witness :
  (let! bs := encode Part000.Int16Vec [1; -2; 300] in
   decode Part000.Int16Vec bs)
  = Ok [1; -2; 300].
Proof.
  apply (Vec_roundtrip Part000.Int16 16 true [1; -2; 300]).
  - apply in_Part000. simpl. tauto.
  - reflexivity.
  - repeat constructor; unfold in_range; simpl; lia.
  - simpl. lia.
Defined.

(** ** Where the sign is *)

Lemma le_to_Z_app (low : Bytes) (top : byte) :
  le_to_Z (low ++ [top])
  = le_to_Z low + 2 ^ (8 * Z.of_nat (length low)) * Z_of_byte top.
Proof.
  induction low as [|b low IH].
  - cbn [app le_to_Z length].
    change (2 ^ (8 * Z.of_nat 0)) with 1. lia.
  - cbn [app le_to_Z length]. rewrite IH.
    replace (8 * Z.of_nat (S (length low)))
      with (8 + 8 * Z.of_nat (length low)) by lia.
    rewrite Z.pow_add_r by lia. change (2 ^ 8) with 256. ring.
Qed.

(** In little-endian order a non-empty buffer ends with its most
    significant octet. *)
Lemma order_mostSignificant (le : bool) (buffer : Bytes) :
  buffer <> [] ->
  exists low,
    DataView.order le buffer = low ++ [mostSignificant le buffer]
    /\ S (length low) = length buffer.
Proof.
  intros Hne. destruct le; cbn [DataView.order mostSignificant].
  - exists (removelast buffer). split.
    + now apply app_removelast_last.
    + pose proof (app_removelast_last x00 Hne) as E.
      apply (f_equal (@length byte)) in E.
      rewrite length_app in E. simpl in E. lia.
  - destruct buffer as [|b rest]; [contradiction|].
    exists (rev rest). split; [reflexivity|].
    now rewrite length_rev.
Qed.

(** The sign of octets read as two's complement is the top bit of the
    most significant one. *)
Lemma read_negative_iff (w : Z) (le : bool) (bs : Bytes) :
  0 < w -> 8 * Z.of_nat (length bs) = w ->
  (toSigned w (le_to_Z (DataView.order le bs)) < 0
   <-> 128 <= Z_of_byte (mostSignificant le bs)).
Proof.
  intros Hpos Hw.
  assert (Hne : bs <> []).
  { intros ->. simpl in Hw. lia. }
  destruct (order_mostSignificant le bs Hne) as (low & -> & Hlow).
  rewrite le_to_Z_app.
  pose proof (le_to_Z_range low) as Hr.
  pose proof (Z_of_byte_range (mostSignificant le bs)) as Hm.
  set (P := 2 ^ (8 * Z.of_nat (length low))) in *.
  assert (HP : 0 < P) by (apply Z.pow_pos_nonneg; lia).
  assert (Hw8 : w = 8 + 8 * Z.of_nat (length low)) by lia.
  assert (Hhalf : 2 ^ (w - 1) = 128 * P).
  { replace (w - 1) with (7 + 8 * Z.of_nat (length low)) by lia.
    rewrite Z.pow_add_r by lia. reflexivity. }
  assert (Hfull : 2 ^ w = 256 * P).
  { rewrite Hw8, Z.pow_add_r by lia. reflexivity. }
  unfold toSigned. rewrite Hhalf, Hfull.
  destruct (le_to_Z low + P * Z_of_byte (mostSignificant le bs)
            <? 128 * P) eqn:E.
  - apply Z.ltb_lt in E. split; nia.
  - apply Z.ltb_ge in E. split; nia.
Qed.

(** X12. A decoded value is negative exactly when the top bit is set in
    the most significant of the octets that were read, the first
    [byteLength] octets of the [ArrayBuffer] of the buffer: of the buffer
    itself when it starts its [ArrayBuffer].  The most significant octet
    is the last one for a little-endian codec, the first one for a
    big-endian codec. *)
Theorem decode_negative_iff (c : Codec NumLike Z) (w : Z) (le : bool)
    (b : BytesLike) (v : Z) :
  In (c, w, le) primitives ->
  decode c b = Ok v ->
  (v < 0
   <-> 128 <= Z_of_byte
                (mostSignificant le
                   (firstn (staticLength w) (Uint8Array.buffer b))))
  /\ (Uint8Array.before b = [] ->
      (v < 0 <-> 128 <= Z_of_byte (mostSignificant le (Uint8Array.octets b)))).
Proof.
  intros Hin Hd.
  destruct (width_staticLength w (width_cases _ _ _ Hin)) as [Hw Hpos].
  destruct (decode_Ok_value c w le b v Hin Hd) as [Hlen ->].
  assert (Hgen :
    toSigned w
      (le_to_Z (DataView.order le
                  (firstn (staticLength w) (Uint8Array.buffer b)))) < 0
    <-> 128 <= Z_of_byte
                 (mostSignificant le
                    (firstn (staticLength w) (Uint8Array.buffer b)))).
  { apply read_negative_iff; [exact Hpos|].
    rewrite length_firstn. pose proof (buffer_length b). lia. }
  split; [exact Hgen|].
  intros Hb. rewrite <- Hlen, (firstn_buffer_at_start b Hb) in Hgen.
  rewrite <- Hlen, (firstn_buffer_at_start b Hb). exact Hgen.
Qed.

Lemma decode_negative_iff_witness :
  (-2 < 0
   <-> 128 <= Z_of_byte
                (mostSignificant false
                   (firstn (staticLength 16)
                      (Uint8Array.buffer (Uint8Array.fresh [xff; xfe])))))
  /\ (Uint8Array.before (Uint8Array.fresh [xff; xfe]) = [] ->
      (-2 < 0
       <-> 128 <= Z_of_byte
                    (mostSignificant false
                       (Uint8Array.octets (Uint8Array.fresh [xff; xfe]))))).
Proof.
  apply (decode_negative_iff Part000.Int16BE 16 false
           (Uint8Array.fresh [xff; xfe]) (-2)).
  - apply in_Part000. simpl. tauto.
  - vm_compute. reflexivity.
Defined.
